(** * Shallow embedding of rust-epd-assets (src/lib.rs)

    The crate turns fonts and PNG images into Rust source text for an
    e-paper display.  We embed the data-producing parts: the run-length
    encoder [Font::generate_rle], the image encoder
    [Font::generate_rle_image], the glyph-index compiler
    [Font::generate_get_glyph_index], the font driver [Font::generate]
    (with FreeType as an abstract collaborator) and the bitmap builder
    [Image::load].  The text formatting is replaced by the values it
    prints.

    Conventions.
    - A Rust panic (failed [unwrap], failed [assert!], out-of-bounds
      index) is the [Panic] outcome; nothing is printed in that case.
    - Fixed-width integers are [Z] (u8, u16) with wrap-around written out
      as in a release build; [usize] and [u32] values that cannot
      overflow here are [nat].
    - A Rust [char] is its code point, a [nat]. *)

From Stdlib Require Import List Arith ZArith Lia Bool Sorting.Sorted
  Sorting.Permutation.
From Stdlib Require Strings.String Strings.Ascii.
Import ListNotations.
Open Scope Z_scope.

(** ** Panics and the outcome monad *)

Inductive panic_reason : Type :=
  | UnwrapFailed          (** [.unwrap()] on [Err]/[None] *)
  | IndexOutOfBounds      (** [v[i]] or a slice beyond the end *)
  | AssertionFailed.      (** [assert!(..)] is false *)

Inductive outcome (A : Type) : Type :=
  | Ok (a : A)
  | Panic (r : panic_reason).
Arguments Ok {A} a.
Arguments Panic {A} r.

Definition obind {A B} (m : outcome A) (f : A -> outcome B) : outcome B :=
  match m with
  | Ok a => f a
  | Panic r => Panic r
  end.

Notation "'let?' x ':=' m 'in' f" := (obind m (fun x => f))
  (at level 200, x name, m at level 100, f at level 200).

(** [.unwrap()] on an [Option] or a [Result]. *)
Definition unwrap {A} (o : option A) : outcome A :=
  match o with
  | Some a => Ok a
  | None => Panic UnwrapFailed
  end.

(** [assert!(b)]. *)
Definition assert (b : bool) : outcome unit :=
  if b then Ok tt else Panic AssertionFailed.

(** [v[i]] on a slice or vector. *)
Definition index {A} (v : list A) (i : nat) : outcome A :=
  match nth_error v i with
  | Some a => Ok a
  | None => Panic IndexOutOfBounds
  end.

(** [&v[lo..hi]]. *)
Definition slice {A} (v : list A) (lo hi : nat) : outcome (list A) :=
  if Nat.leb lo hi && Nat.leb hi (length v)
  then Ok (firstn (hi - lo) (skipn lo v))
  else Panic IndexOutOfBounds.

(** [v[i] = x] on a vector. *)
Fixpoint vec_set {A} (v : list A) (i : nat) (x : A) : outcome (list A) :=
  match v, i with
  | [], _ => Panic IndexOutOfBounds
  | _ :: t, O => Ok (x :: t)
  | h :: t, S i' => let? t' := vec_set t i' x in Ok (h :: t')
  end.

(** [v[i] |= x] on a vector of bytes. *)
Fixpoint vec_or (v : list Z) (i : nat) (x : Z) : outcome (list Z) :=
  match v, i with
  | [], _ => Panic IndexOutOfBounds
  | h :: t, O => Ok (Z.lor h x :: t)
  | h :: t, S i' => let? t' := vec_or t i' x in Ok (h :: t')
  end.

(** ** [Font::generate_rle] *)

(** u16 wrap-around. *)
Definition u16 (z : Z) : Z := z mod 65536.

(** [((run_color as u16) << 15) | run_length] *)
Definition pack_run (run_color run_length : Z) : Z :=
  Z.lor (u16 (Z.shiftl run_color 15)) run_length.

Record rle_state : Type := mk_rle_state {
  st_output : list Z;       (** [output: &mut Vec<u16>] *)
  st_run_color : Z;         (** [run_color: u8] *)
  st_run_length : Z;        (** [run_length: u16] *)
  st_bits : nat             (** [bits] *)
}.

(** One iteration of [for i in 0..width]. *)
Definition rle_step (row : list Z) (i : nat) (st : rle_state)
  : outcome rle_state :=
  let? byte := index row (Nat.div i 8) in
  let bit := Z.land (Z.shiftr byte (Z.of_nat (7 - st_bits st))) 1 in
  let '(output, run_color, run_length) :=
    if Z.eqb bit (st_run_color st)
    then (st_output st, st_run_color st, u16 (st_run_length st + 1))
    else (st_output st ++ [pack_run (st_run_color st) (st_run_length st)],
          bit, 1) in
  let bits := S (st_bits st) in
  let bits := if Nat.eqb bits 8 then O else bits in
  Ok (mk_rle_state output run_color run_length bits).

(** [for i in start..start+n]. *)
Fixpoint rle_loop (row : list Z) (n i : nat) (st : rle_state)
  : outcome rle_state :=
  match n with
  | O => Ok st
  | S n' => let? st' := rle_step row i st in rle_loop row n' (S i) st'
  end.

Definition generate_rle (output : list Z) (row : list Z) (width : nat)
  : outcome (list Z) :=
  let? row0 := index row 0 in
  let run_color := Z.shiftr (Z.land row0 128) 7 in
  let? st := rle_loop row width 0 (mk_rle_state output run_color 0 0) in
  Ok (st_output st ++ [pack_run (st_run_color st) (st_run_length st)]).

(** ** Reading the words back *)

Definition word_color (w : Z) : Z := Z.shiftr w 15.
Definition word_length (w : Z) : Z := Z.land w 32767.

(** Run-length expansion of a word sequence. *)
Definition expand_words (ws : list Z) : list Z :=
  flat_map (fun w => repeat (word_color w) (Z.to_nat (word_length w))) ws.

(** Pixel [i] of a row, MSB-first within each byte. *)
Definition row_bit (row : list Z) (i : nat) : Z :=
  Z.land (Z.shiftr (nth (Nat.div i 8) row 0) (Z.of_nat (7 - Nat.modulo i 8))) 1.

Definition row_bits (row : list Z) (width : nat) : list Z :=
  map (row_bit row) (seq 0 width).

(** Runs as (color, length) pairs, the value [generate_rle] packs. *)
Definition expand_runs (rs : list (Z * Z)) : list Z :=
  flat_map (fun r => repeat (fst r) (Z.to_nat (snd r))) rs.

Fixpoint alternating (rs : list (Z * Z)) : Prop :=
  match rs with
  | r1 :: ((r2 :: _) as t) => fst r1 <> fst r2 /\ alternating t
  | _ => True
  end.

(** ** [Font::generate_rle_image] *)

(** A FreeType [Bitmap] with a non-negative pitch. *)
Record Bitmap : Type := mk_bitmap {
  bm_buffer : list Z;     (** [bm.buffer()], bytes *)
  bm_pitch : nat;         (** [bm.pitch() as usize] *)
  bm_width : nat;         (** [bm.width() as usize] *)
  bm_rows : nat           (** [bm.rows() as usize] *)
}.

(** The [RLEImage] literal the function prints. *)
Record RLEImage : Type := mk_rle_image {
  rle_data : list Z;
  rle_width : nat;
  rle_height : nat
}.

(** [for y in start..start+n] of [generate_rle_image]. *)
Fixpoint rle_image_rows (bm : Bitmap) (n y : nat) (data : list Z)
  : outcome (list Z) :=
  match n with
  | O => Ok data
  | S n' =>
      let? row := slice (bm_buffer bm) (y * bm_pitch bm)%nat
                        ((y + 1) * bm_pitch bm)%nat in
      let? data := generate_rle data row (bm_width bm) in
      let? data := vec_set data (y + 1)%nat (u16 (Z.of_nat (length data))) in
      rle_image_rows bm n' (S y) data
  end.

Definition generate_rle_image (bm : Bitmap) : outcome RLEImage :=
  let width := bm_width bm in
  let height := bm_rows bm in
  let data := repeat 0 (height + 1)%nat in
  let? data := vec_set data 0 (u16 (Z.of_nat (length data))) in
  let? data := rle_image_rows bm height 0 data in
  Ok (mk_rle_image data width height).

(** Row [y] of a bitmap as [generate_rle_image] slices it. *)
Definition bitmap_row (bm : Bitmap) (y : nat) : list Z :=
  firstn (bm_pitch bm) (skipn (y * bm_pitch bm) (bm_buffer bm)).

(** ** [Font::generate_get_glyph_index] *)

(** The two shapes of [if] that [generate_get_glyph_index_range] prints
    into the lookup closure [|c: char| -> Option<usize>]. *)
Inductive clause : Type :=
  | IfEq (c0 ret : nat)
      (** [if c == c0 { return Some(ret); }] *)
  | IfRange (lo hi base : nat).
      (** [if c >= lo && c < hi { return Some(base + c - lo); }] *)

Definition generate_get_glyph_index_range
  (run_start run_length start_index : nat) : clause :=
  if Nat.eqb run_length 1
  then IfEq run_start start_index
  else IfRange run_start (run_start + run_length) start_index.

Definition eval_clause (cl : clause) (c : nat) : option nat :=
  match cl with
  | IfEq c0 ret => if Nat.eqb c c0 then Some ret else None
  | IfRange lo hi base =>
      if Nat.leb lo c && Nat.ltb c hi then Some (base + c - lo)%nat else None
  end.

(** The generated closure: the first [if] that fires returns, else [None]. *)
Fixpoint eval_index (code : list clause) (c : nat) : option nat :=
  match code with
  | [] => None
  | cl :: rest =>
      match eval_clause cl c with
      | Some k => Some k
      | None => eval_index rest c
      end
  end.

(** [for i in start..start+n] of [generate_get_glyph_index]; the state is
    [(code, run_start, run_length)]. *)
Fixpoint ggi_loop (chars : list nat) (n i : nat) (code : list clause)
  (run_start run_length : nat) : outcome (list clause * nat * nat) :=
  match n with
  | O => Ok (code, run_start, run_length)
  | S n' =>
      let? c := index chars i in
      if Nat.eqb c (run_start + run_length)
      then ggi_loop chars n' (S i) code run_start (S run_length)
      else ggi_loop chars n' (S i)
             (code ++ [generate_get_glyph_index_range run_start run_length
                         (i - run_length)])
             c 1
  end.

Definition generate_get_glyph_index (chars : list nat) : outcome (list clause) :=
  let? c0 := index chars 0 in
  let? st := ggi_loop chars (length chars - 1) 1 [] c0 1 in
  match st with
  | (code, run_start, run_length) =>
      Ok (code ++ [generate_get_glyph_index_range run_start run_length
                     (length chars - run_length)])
  end.

(** Position of the first occurrence of [c]. *)
Fixpoint find_first (c : nat) (l : list nat) : option nat :=
  match l with
  | [] => None
  | x :: t => if Nat.eqb x c then Some O else option_map S (find_first c t)
  end.

(** ** [Font::generate] *)

(** [subset.sort()] on a [Vec<char>]: any correct sort of code points gives
    this list. *)
Fixpoint insert_char (c : nat) (l : list nat) : list nat :=
  match l with
  | [] => [c]
  | x :: t => if Nat.leb c x then c :: l else x :: insert_char c t
  end.

Fixpoint sort_chars (l : list nat) : list nat :=
  match l with
  | [] => []
  | x :: t => insert_char x (sort_chars t)
  end.

(** The FreeType glyph slot after [load_char]. *)
Record GlyphSlot : Type := mk_glyph_slot {
  gs_bitmap : Bitmap;
  gs_bitmap_left : Z;
  gs_bitmap_top : Z;
  gs_advance_x : Z        (** [glyph.advance().x], 1/64 px *)
}.

(** [face.size_metrics()], 1/64 px. *)
Record SizeMetrics : Type := mk_size_metrics {
  sm_ascender : Z;
  sm_descender : Z
}.

(** The [Glyph] literal [generate_glyph] prints. *)
Record Glyph : Type := mk_glyph {
  gl_image : RLEImage;
  gl_image_left : Z;
  gl_image_top : Z;
  gl_advance : Z
}.

(** The [Font] literal [generate] prints. *)
Record Font : Type := mk_font {
  ft_ascender : Z;
  ft_descender : Z;
  ft_glyphs : list Glyph;
  ft_get_glyph_index : list clause
}.

(** [(size.ascender + 63) / 64] on [FT_Pos] (i64, [/] truncates). *)
Definition font_ascender (sm : SizeMetrics) : Z :=
  Z.quot (sm_ascender sm + 63) 64.

(** [-(size.descender + 63) / 64]: unary minus binds tighter than [/]. *)
Definition font_descender (sm : SizeMetrics) : Z :=
  Z.quot (- (sm_descender sm + 63)) 64.

Section Generate.

(** The FreeType face of a [Font].  [set_char_size sz] says whether
    [face.set_char_size(0, sz, 72, 72)] succeeds; at char size [sz],
    [load_char sz c] is the glyph slot after
    [face.load_char(c, RENDER | TARGET_MONO)] ([None] if it fails) and
    [size_metrics sz] is [face.size_metrics()]. *)
Variable set_char_size : Z -> bool.
Variable load_char : Z -> nat -> option GlyphSlot.
Variable size_metrics : Z -> option SizeMetrics.

Definition generate_glyph (sz : Z) (c : nat) : outcome Glyph :=
  let? glyph := unwrap (load_char sz c) in
  let? image := generate_rle_image (gs_bitmap glyph) in
  let? _ := assert (0 <=? gs_bitmap_top glyph) in
  Ok (mk_glyph image (gs_bitmap_left glyph) (gs_bitmap_top glyph)
         (Z.quot (gs_advance_x glyph + 63) 64)).

(** [for c in subset.iter()], pushing [self.generate_glyph] of each. *)
Fixpoint generate_glyphs (sz : Z) (cs : list nat) : outcome (list Glyph) :=
  match cs with
  | [] => Ok []
  | c :: t =>
      let? g := generate_glyph sz c in
      let? gs := generate_glyphs sz t in
      Ok (g :: gs)
  end.

(** [format!] evaluates its arguments in order, so the index is compiled
    after the glyphs and the metrics. *)
Definition generate (size : Z) (subset : list nat) : outcome Font :=
  let subset := sort_chars subset in
  let? _ := unwrap (if set_char_size (size * 64) then Some tt else None) in
  let? glyphs := generate_glyphs (size * 64) subset in
  let? sm := unwrap (size_metrics (size * 64)) in
  let? index := generate_get_glyph_index subset in
  Ok (mk_font (font_ascender sm) (font_descender sm) glyphs index).

End Generate.

(** ** [Image::load] *)

(** [lodepng::RGBA], u8 channels. *)
Record RGBA : Type := mk_rgba { px_r : Z; px_g : Z; px_b : Z; px_a : Z }.

(** The [Bitmap<RGBA>] returned by [lodepng::decode32_file]. *)
Record Decoded : Type := mk_decoded {
  dec_buffer : list RGBA;
  dec_width : nat;
  dec_height : nat
}.

Record Image : Type := mk_image {
  im_data : list Z;
  im_stride : nat;
  im_width : nat;
  im_height : nat
}.

(** u8 wrap-around. *)
Definition u8 (z : Z) : Z := z mod 256.

(** [(pixel.r + pixel.g + pixel.b) / 3] in u8. *)
Definition avg_color (p : RGBA) : Z :=
  u8 (u8 (px_r p + px_g p) + px_b p) / 3.

(** [(255 - avg_color) as u32 * alpha as u32 / 255] *)
Definition level (p : RGBA) : Z :=
  u8 (255 - avg_color p) * px_a p / 255.

(** [level < 128] *)
Definition pixel_on (p : RGBA) : bool := level p <? 128.

(** [for x in start..start+n] for row [y]. *)
Fixpoint load_row (img : Decoded) (stride y n x : nat) (data : list Z)
  : outcome (list Z) :=
  match n with
  | O => Ok data
  | S n' =>
      let? pixel := index (dec_buffer img) (y * dec_width img + x)%nat in
      let? data :=
        if pixel_on pixel
        then vec_or data (y * stride + x / 8)%nat
               (u8 (Z.shiftl 1 (Z.of_nat (Nat.land x 7))))
        else Ok data in
      load_row img stride y n' (S x) data
  end.

(** [for y in start..start+n]. *)
Fixpoint load_rows (img : Decoded) (stride n y : nat) (data : list Z)
  : outcome (list Z) :=
  match n with
  | O => Ok data
  | S n' =>
      let? data := load_row img stride y (dec_width img) 0 data in
      load_rows img stride n' (S y) data
  end.

(** [Image::load] after [decode32_file] succeeded ([?] on its error is
    not modelled). *)
Definition image_load (img : Decoded) : outcome Image :=
  let width := dec_width img in
  let height := dec_height img in
  let stride := ((width + 7) / 8)%nat in
  let data := repeat 0 (stride * height)%nat in
  let? data := load_rows img stride height 0 data in
  Ok (mk_image data stride width height).

(** ** [Image::generate_bitmap] *)

(** The text is built with [String.append]; the string notations are
    only used inside this section, so the list notations stay as they are
    in the rest of the file. *)
Local Infix "+++" := String.append (at level 60, right associativity).

Section BitmapText.
Import (notations) Stdlib.Strings.String.
Local Open Scope string_scope.

(** One-character strings. *)
Definition chr (n : nat) : String.string := String.String (Ascii.ascii_of_nat n) String.EmptyString.
Definition nl : String.string := chr 10.

(** Decimal digits of [n] in front of [acc], most significant first. *)
Fixpoint digits (fuel : nat) (n : N) (acc : String.string) : String.string :=
  match fuel with
  | O => acc
  | S f =>
      let acc := String.String (Ascii.ascii_of_N (48 + N.modulo n 10)) acc in
      if N.ltb n 10 then acc else digits f (N.div n 10) acc
  end.

(** [format!("{}", n)] of an unsigned integer. *)
Definition display_N (n : N) : String.string := digits (S (N.size_nat n)) n String.EmptyString.
Definition display (z : Z) : String.string := display_N (Z.to_N z).
Definition display_nat (n : nat) : String.string := display_N (N.of_nat n).

(** [for j in start..start+n]: [data_str += &format!(" {},", self.data[i * self.stride + j])]. *)
Fixpoint bitmap_row_str (im : Image) (i n j : nat) (s : String.string) : outcome String.string :=
  match n with
  | O => Ok s
  | S n' =>
      let? b := index (im_data im) (i * im_stride im + j)%nat in
      bitmap_row_str im i n' (S j) (s +++ chr 32 +++ display b +++ ",")
  end.

(** [for i in start..start+n] of [generate_bitmap]. *)
Fixpoint bitmap_rows_str (im : Image) (n i : nat) (s : String.string) : outcome String.string :=
  match n with
  | O => Ok s
  | S n' =>
      let s := s +++ "       " in
      let? s := bitmap_row_str im i (im_stride im) 0 s in
      bitmap_rows_str im n' (S i) (s +++ nl)
  end.

Definition generate_bitmap (im : Image) (name epd_crate : String.string) : outcome String.string :=
  let data_str := "[" +++ nl in
  let? data_str := bitmap_rows_str im (im_height im) 0 data_str in
  let data_str := data_str +++ "    ]" in
  Ok ("pub const " +++ name +++ ": " +++ epd_crate +++ "::gui::image::BitmapImage = "
      +++ epd_crate +++ "::gui::image::BitmapImage {" +++ nl
      +++ "    data: &" +++ data_str +++ "," +++ nl
      +++ "    width: " +++ display_nat (im_width im) +++ "," +++ nl
      +++ "    height: " +++ display_nat (im_height im) +++ "," +++ nl
      +++ "    stride: " +++ display_nat (im_stride im) +++ "," +++ nl
      +++ "};" +++ nl).

End BitmapText.

(** ** A concrete FreeType face for evaluation *)

(** Every size is accepted; character [c] renders as an empty bitmap with
    top bearing [top c] and an advance of 10 px; the size metrics are
    [metrics]. *)
Definition demo_set_char_size (_ : Z) : bool := true.

Definition demo_load_char (top : nat -> Z) (_ : Z) (c : nat)
  : option GlyphSlot :=
  Some (mk_glyph_slot (mk_bitmap [] 0 0 0) 0 (top c) 640).

Definition demo_size_metrics (metrics : SizeMetrics) (_ : Z)
  : option SizeMetrics :=
  Some metrics.

(** ** Proof-side definitions *)

(** Default pixel for [nth] on a decoded buffer. *)
Definition pixel0 : RGBA := mk_rgba 0 0 0 0.

(** Invariant of [rle_loop] after pixels [0..i): the words pushed so far
    pack the maximal runs [rs], and the open run is the last one. *)
Definition rle_inv (row out0 : list Z) (i : nat) (st : rle_state) : Prop :=
  exists rs,
    st_output st = out0 ++ map (fun r => pack_run (fst r) (snd r)) rs /\
    Forall (fun r => (fst r = 0 \/ fst r = 1) /\ 1 <= snd r <= Z.of_nat i) rs /\
    alternating (rs ++ [(st_run_color st, st_run_length st)]) /\
    expand_runs rs ++ repeat (st_run_color st) (Z.to_nat (st_run_length st))
      = row_bits row i /\
    st_bits st = Nat.modulo i 8 /\
    (st_run_color st = 0 \/ st_run_color st = 1) /\
    0 <= st_run_length st <= Z.of_nat i /\
    (i = O -> st_run_color st = row_bit row 0) /\
    ((0 < i)%nat -> 1 <= st_run_length st).

(** Header words [0..=length wss] of [generate_rle_image] once the rows
    [wss] are encoded, for a bitmap of [H] rows. *)
Definition hdr_of (H : nat) (wss : list (list Z)) : list Z :=
  map (fun k => u16 (Z.of_nat (H + 1 + length (concat (firstn k wss)))))
      (seq 0 (length wss + 1)).

(** [rle_state] with [out0] put in front of the output. *)
Definition shift_out (out0 : list Z) (st : rle_state) : rle_state :=
  mk_rle_state (out0 ++ st_output st) (st_run_color st) (st_run_length st)
    (st_bits st).

(** ** Lemmas: [generate_rle] *)

Lemma land1_cases (z : Z) : Z.land z 1 = 0 \/ Z.land z 1 = 1.
Proof.
  replace (Z.land z 1) with (Z.land z (Z.ones 1)) by reflexivity.
  rewrite Z.land_ones by lia. change (2 ^ 1) with 2.
  pose proof (Z.mod_pos_bound z 2 ltac:(lia)). lia.
Qed.

Lemma pack_run_spec (c l : Z) :
  (c = 0 \/ c = 1) -> 0 <= l <= 32767 ->
  pack_run c l = c * 32768 + l /\ word_color (pack_run c l) = c /\
  word_length (pack_run c l) = l.
Proof.
  intros Hc Hl.
  assert (Hp : pack_run c l = c * 32768 + l).
  { unfold pack_run. destruct Hc as [-> | ->].
    - change (u16 (Z.shiftl 0 15)) with 0. rewrite Z.lor_0_l. lia.
    - change (u16 (Z.shiftl 1 15)) with 32768.
      assert (Hz : Z.land 32768 l = 0).
      { assert (Hl' : Z.land l (Z.ones 15) = l).
        { rewrite Z.land_ones by lia. apply Z.mod_small.
          change (2 ^ 15) with 32768. lia. }
        rewrite <- Hl', Z.land_comm, <- Z.land_assoc.
        change (Z.land (Z.ones 15) 32768) with 0. apply Z.land_0_r. }
      rewrite <- Z.lxor_lor by exact Hz.
      rewrite <- Z.add_nocarry_lxor by exact Hz. lia. }
  split; [exact Hp|]. unfold word_color, word_length. rewrite Hp.
  rewrite Z.shiftr_div_pow2 by lia.
  change 32767 with (Z.ones 15). rewrite Z.land_ones by lia.
  change (2 ^ 15) with 32768.
  split; destruct Hc as [-> | ->]; Z.div_mod_to_equations; lia.
Qed.

Lemma alternating_last (l : list (Z * Z)) (c x y : Z) :
  alternating (l ++ [(c, x)]) -> alternating (l ++ [(c, y)]).
Proof.
  induction l as [| a t IH]; intros H; [exact I|].
  destruct t as [| b t]; simpl in *; destruct H as [H1 H2];
    split; first [assumption | exact I | exact (IH H2)].
Qed.

Lemma alternating_snoc (l : list (Z * Z)) (a b : Z * Z) :
  alternating (l ++ [a]) -> fst a <> fst b -> alternating ((l ++ [a]) ++ [b]).
Proof.
  induction l as [| x t IH]; intros H Hab; [simpl; auto|].
  destruct t as [| y t]; simpl in *; destruct H as [H1 H2];
    split; first [assumption | exact (conj Hab I) | exact (IH H2 Hab)].
Qed.

Lemma alternating_init (l : list (Z * Z)) (a : Z * Z) :
  alternating (l ++ [a]) -> alternating l.
Proof.
  induction l as [| x t IH]; intros H; [exact I|].
  destruct t as [| y t]; simpl in *; [exact I|].
  destruct H as [H1 H2]; split; [assumption | exact (IH H2)].
Qed.

Lemma expand_runs_app (l1 l2 : list (Z * Z)) :
  expand_runs (l1 ++ l2) = expand_runs l1 ++ expand_runs l2.
Proof. unfold expand_runs. apply flat_map_app. Qed.

Lemma row_bits_S (row : list Z) (i : nat) :
  row_bits row (S i) = row_bits row i ++ [row_bit row i].
Proof. unfold row_bits. rewrite seq_S, map_app. reflexivity. Qed.

Lemma index_nth {A} (v : list A) (i : nat) (d : A) :
  (i < length v)%nat -> index v i = Ok (nth i v d).
Proof.
  intros H. unfold index. rewrite (nth_error_nth' v d H). reflexivity.
Qed.

Lemma bits_next (i : nat) :
  (if Nat.eqb (S (Nat.modulo i 8)) 8 then O else S (Nat.modulo i 8))
  = Nat.modulo (S i) 8.
Proof.
  pose proof (Nat.mod_upper_bound i 8 ltac:(lia)).
  pose proof (Nat.div_mod_eq i 8).
  destruct (Nat.eqb_spec (S (Nat.modulo i 8)) 8).
  - apply (Nat.mod_unique (S i) 8 (S (i / 8)) 0); lia.
  - apply (Nat.mod_unique (S i) 8 (i / 8)); lia.
Qed.
Lemma rle_step_inv (row out0 : list Z) (i : nat) (st : rle_state) :
  rle_inv row out0 i st -> (Nat.div i 8 < length row)%nat ->
  Z.of_nat (S i) <= 65535 ->
  exists st', rle_step row i st = Ok st' /\ rle_inv row out0 (S i) st'.
Proof.
  intros [rs (Hout & Hrs & Halt & Hexp & Hbits & Hc & Hl & H0 & Hpos)] Hi Hb.
  unfold rle_step. rewrite (index_nth row (i / 8) 0 Hi). cbn [obind].
  rewrite Hbits.
  change (Z.land (Z.shiftr (nth (i / 8) row 0) (Z.of_nat (7 - i mod 8))) 1)
    with (row_bit row i).
  destruct (Z.eqb_spec (row_bit row i) (st_run_color st)) as [E | E].
  - eexists; split; [reflexivity|]. exists rs. cbn [st_output st_run_color st_run_length st_bits fst snd].
    rewrite bits_next.
    assert (Hu : u16 (st_run_length st + 1) = st_run_length st + 1).
    { unfold u16. apply Z.mod_small. lia. }
    rewrite Hu.
    split; [exact Hout|]. split.
    { eapply Forall_impl; [|exact Hrs]. intros r Hr; simpl in Hr; lia. }
    split; [eapply alternating_last; exact Halt|].
    split.
    { rewrite row_bits_S, <- Hexp, Z2Nat.inj_add, repeat_app, app_assoc, E
        by lia. reflexivity. }
    repeat split; try tauto; lia.
  - assert (Hl1 : 1 <= st_run_length st).
    { destruct i as [| i']; [|apply Hpos; lia].
      exfalso. apply E. symmetry. apply H0. reflexivity. }
    eexists; split; [reflexivity|].
    exists (rs ++ [(st_run_color st, st_run_length st)]).
    cbn [st_output st_run_color st_run_length st_bits fst snd].
    rewrite bits_next.
    split; [rewrite Hout, map_app, app_assoc; reflexivity|]. split.
    { apply Forall_app; split.
      - eapply Forall_impl; [|exact Hrs]. intros r Hr; simpl in Hr; lia.
      - constructor; [simpl; split; [exact Hc | lia] | constructor]. }
    split; [apply alternating_snoc; [exact Halt | simpl; congruence]|].
    split.
    { rewrite expand_runs_app, row_bits_S, <- Hexp. simpl.
      rewrite app_nil_r, <- app_assoc. reflexivity. }
    repeat split; try lia. apply land1_cases.
Qed.

Lemma div8_lt (i len : nat) : (S i <= 8 * len)%nat -> (Nat.div i 8 < len)%nat.
Proof. intros H. apply Nat.Div0.div_lt_upper_bound. lia. Qed.

Lemma rle_loop_inv (row out0 : list Z) (n : nat) :
  forall i st, rle_inv row out0 i st -> (i + n <= 8 * length row)%nat ->
  Z.of_nat (i + n) <= 65535 ->
  exists st', rle_loop row n i st = Ok st' /\ rle_inv row out0 (i + n) st'.
Proof.
  induction n as [| n IH]; intros i st Hinv Hlen Hb.
  - exists st. rewrite Nat.add_0_r. auto.
  - destruct (rle_step_inv row out0 i st Hinv) as (st1 & Hs & Hinv1);
      [apply div8_lt; lia | lia |].
    cbn [rle_loop]. rewrite Hs. cbn [obind].
    replace (i + S n)%nat with (S i + n)%nat by lia.
    apply IH; [exact Hinv1 | lia | lia].
Qed.

Lemma generate_rle_runs (out0 row : list Z) (width : nat) :
  row <> [] -> (width <= 8 * length row)%nat -> Z.of_nat width <= 32767 ->
  exists rs,
    generate_rle out0 row width
      = Ok (out0 ++ map (fun r => pack_run (fst r) (snd r)) rs) /\
    Forall (fun r => (fst r = 0 \/ fst r = 1) /\ 0 <= snd r <= 32767) rs /\
    alternating rs /\
    expand_runs rs = row_bits row width /\
    ((0 < width)%nat -> Forall (fun r => 1 <= snd r) rs).
Proof.
  intros Hne Hlen Hb.
  destruct row as [| b0 t]; [contradiction|].
  set (rc := Z.shiftr (Z.land b0 128) 7).
  assert (Hinv0 : rle_inv (b0 :: t) out0 0 (mk_rle_state out0 rc 0 0)).
  { exists []. cbn [st_output st_run_color st_run_length st_bits].
    assert (Hrc : rc = row_bit (b0 :: t) 0).
    { unfold rc, row_bit. rewrite Z.shiftr_land. reflexivity. }
    assert (Hc : rc = 0 \/ rc = 1) by (rewrite Hrc; apply land1_cases).
    repeat split; try exact Hc; try (simpl; lia);
      try (rewrite app_nil_r; reflexivity); try (intros; exact Hrc);
      constructor. }
  destruct (rle_loop_inv (b0 :: t) out0 width 0 _ Hinv0) as (st & Hl & Hinv);
    [lia | lia |].
  destruct Hinv as [rs (Hout & Hrs & Halt & Hexp & _ & Hc & Hrl & H0 & Hpos)].
  cbn [Nat.add] in *.
  exists (rs ++ [(st_run_color st, st_run_length st)]).
  unfold generate_rle. cbn [index nth_error obind]. fold rc. rewrite Hl.
  cbn [obind]. rewrite Hout, map_app, <- app_assoc. split; [reflexivity|].
  split.
  { apply Forall_app; split.
    - eapply Forall_impl; [|exact Hrs]. simpl; intros r Hr; lia.
    - constructor; [simpl; split; [exact Hc | lia] | constructor]. }
  split; [exact Halt|].
  split.
  { rewrite expand_runs_app, <- Hexp. simpl. rewrite app_nil_r. reflexivity. }
  intros Hw. apply Forall_app; split.
  - eapply Forall_impl; [|exact Hrs]. simpl; intros r Hr; lia.
  - constructor; [simpl; apply Hpos; lia | constructor].
Qed.

Lemma expand_words_pack (rs : list (Z * Z)) :
  Forall (fun r => (fst r = 0 \/ fst r = 1) /\ 0 <= snd r <= 32767) rs ->
  expand_words (map (fun r => pack_run (fst r) (snd r)) rs) = expand_runs rs.
Proof.
  induction rs as [| [c l] rs IH]; intros H; [reflexivity|].
  inversion H as [| ? ? [Hc Hl] Hrest]; subst.
  destruct (pack_run_spec c l Hc Hl) as (_ & Ec & El).
  specialize (IH Hrest). unfold expand_words, expand_runs in *.
  cbn [map flat_map fst snd]. rewrite Ec, El, IH. reflexivity.
Qed.

Lemma rle_loop_zero_row (m : nat) (out : list Z) :
  forall n i l, (i + n <= 8 * m)%nat ->
  rle_loop (repeat 0 m) n i (mk_rle_state out 0 (u16 l) (i mod 8))
  = Ok (mk_rle_state out 0 (u16 (l + Z.of_nat n)) ((i + n) mod 8)).
Proof.
  induction n as [|n IH]; intros i l H.
  - rewrite Z.add_0_r, Nat.add_0_r. reflexivity.
  - cbn [rle_loop]. unfold rle_step.
    rewrite (index_nth _ _ 0) by (rewrite repeat_length; apply div8_lt; lia).
    rewrite nth_repeat. cbn [obind st_bits st_run_color st_run_length st_output].
    rewrite Z.shiftr_0_l, Z.land_0_l. cbn [Z.eqb]. rewrite bits_next.
    replace (u16 (u16 l + 1)) with (u16 (l + 1))
      by (unfold u16; rewrite Z.add_mod_idemp_l by lia; reflexivity).
    cbn [obind]. rewrite IH by lia.
    f_equal. f_equal; [f_equal; lia | f_equal; lia].
Qed.

Lemma generate_rle_zero_row (m : nat) : (1 <= m)%nat ->
  generate_rle [] (repeat 0 m) (8 * m)
  = Ok [pack_run 0 (u16 (Z.of_nat (8 * m)))].
Proof.
  intro Hm. unfold generate_rle.
  rewrite (index_nth _ 0 0) by (rewrite repeat_length; lia).
  rewrite nth_repeat. cbn [obind].
  change (Z.shiftr (Z.land 0 128) 7) with 0.
  replace (mk_rle_state [] 0 0 0) with (mk_rle_state [] 0 (u16 0) (0 mod 8))
    by reflexivity.
  rewrite rle_loop_zero_row by lia.
  cbn [obind st_output st_run_color st_run_length app].
  rewrite Z.add_0_l. reflexivity.
Qed.


(** ** Claims about [generate_rle] *)

(** Claim C1 (amended).  For a row of [width] pixels, 1 <= [width] <= 32767,
    held in enough bytes, [generate_rle] succeeds and expanding its words
    (color = bit 15, length = bits 14..0) gives back the [width] pixels of
    the row, read MSB-first within each byte. *)
Theorem generate_rle_roundtrip (row : list Z) (width : nat)
  (Hw1 : (1 <= width)%nat) (Hlen : (width <= 8 * length row)%nat)
  (Hw : Z.of_nat width <= 32767) :
  exists ws, generate_rle [] row width = Ok ws /\
             expand_words ws = row_bits row width.
Proof.
  assert (Hne : row <> []) by (intros ->; simpl in Hlen; lia).
  destruct (generate_rle_runs [] row width Hne Hlen Hw)
    as (rs & Hg & Hrs & _ & Hexp & _).
  exists (map (fun r => pack_run (fst r) (snd r)) rs). split.
  - exact Hg.
  - rewrite expand_words_pack by exact Hrs. exact Hexp.
Qed.

Lemma generate_rle_roundtrip_witness :
  ((1 <= 12)%nat /\ (12 <= 8 * length [255; 0])%nat /\ Z.of_nat 12 <= 32767) /\
  exists ws, generate_rle [] [255; 0] 12 = Ok ws /\
             expand_words ws = row_bits [255; 0] 12.
Proof.
  split; [simpl; lia|].
  apply generate_rle_roundtrip; simpl; lia.
Defined.

(** Claim C1, counterexample.  A row of 32768 background pixels: the claim's
    premises hold, yet the single run does not fit in 15 bits, the word is
    [0x8000] and expands to nothing. *)
Lemma generate_rle_roundtrip_32768 :
  (1 <= 8 * 4096)%nat /\ (8 * 4096 <= 8 * length (repeat 0 4096))%nat /\
  generate_rle [] (repeat 0 4096) (8 * 4096) = Ok [32768] /\
  expand_words [32768] = [] /\
  ~ (exists ws, generate_rle [] (repeat 0 4096) (8 * 4096) = Ok ws /\
                expand_words ws = row_bits (repeat 0 4096) (8 * 4096)).
Proof.
  assert (Hg : generate_rle [] (repeat 0 4096) (8 * 4096) = Ok [32768]).
  { rewrite generate_rle_zero_row by (apply Nat.leb_le; reflexivity).
    rewrite Nat2Z.inj_mul. reflexivity. }
  split; [apply Nat.leb_le; reflexivity|].
  split; [rewrite repeat_length; apply Nat.le_refl|].
  split; [exact Hg|]. split; [reflexivity|].
  intros (ws & H1 & H2). rewrite Hg in H1. injection H1 as <-.
  apply (f_equal (@length Z)) in H2. unfold row_bits in H2.
  rewrite length_map, length_seq in H2.
  change (expand_words [32768]) with (@nil Z) in H2. discriminate H2.
Qed.

(** Claim C7 (amended).  For a row of [width] pixels, 1 <= [width] <= 32767,
    [generate_rle] emits one word per run [rs]: no two adjacent runs have
    the same color, every run has color 0 or 1 and length in [1, 32767],
    its word is [color * 2^15 + length] (color in bit 15, length in bits
    14..0), and the runs expand to the row. *)
Theorem generate_rle_runs_packed (row : list Z) (width : nat)
  (Hw1 : (1 <= width)%nat) (Hlen : (width <= 8 * length row)%nat)
  (Hw : Z.of_nat width <= 32767) :
  exists rs,
    generate_rle [] row width
      = Ok (map (fun r => pack_run (fst r) (snd r)) rs) /\
    alternating rs /\
    Forall (fun r => (fst r = 0 \/ fst r = 1) /\ 1 <= snd r <= 32767 /\
                     pack_run (fst r) (snd r) = fst r * 32768 + snd r /\
                     word_color (pack_run (fst r) (snd r)) = fst r /\
                     word_length (pack_run (fst r) (snd r)) = snd r) rs /\
    expand_runs rs = row_bits row width.
Proof.
  assert (Hne : row <> []) by (intros ->; simpl in Hlen; lia).
  destruct (generate_rle_runs [] row width Hne Hlen Hw)
    as (rs & Hg & Hrs & Halt & Hexp & Hpos).
  specialize (Hpos ltac:(lia)).
  exists rs. split; [exact Hg|]. split; [exact Halt|]. split; [|exact Hexp].
  rewrite Forall_forall in *. intros r Hr.
  destruct (Hrs r Hr) as [Hc Hl]. pose proof (Hpos r Hr) as H1.
  destruct (pack_run_spec (fst r) (snd r) Hc Hl) as (E1 & E2 & E3).
  repeat split; try assumption; lia.
Qed.

Lemma generate_rle_runs_packed_witness :
  ((1 <= 12)%nat /\ (12 <= 8 * length [255; 0])%nat /\ Z.of_nat 12 <= 32767) /\
  exists rs,
    generate_rle [] [255; 0] 12
      = Ok (map (fun r => pack_run (fst r) (snd r)) rs) /\
    alternating rs /\
    Forall (fun r => (fst r = 0 \/ fst r = 1) /\ 1 <= snd r <= 32767 /\
                     pack_run (fst r) (snd r) = fst r * 32768 + snd r /\
                     word_color (pack_run (fst r) (snd r)) = fst r /\
                     word_length (pack_run (fst r) (snd r)) = snd r) rs /\
    expand_runs rs = row_bits [255; 0] 12.
Proof.
  split; [simpl; lia|].
  apply generate_rle_runs_packed; simpl; lia.
Defined.

(** Claim C7, counterexample.  A single-color row of 32768 pixels gives one
    run of length 32768; its word [0x8000] has length field 0 and color
    field 1, though the run is background of length 32768. *)
Lemma generate_rle_long_run_32768 :
  generate_rle [] (repeat 0 4096) (8 * 4096) = Ok [32768] /\
  word_length 32768 = 0 /\ word_color 32768 = 1.
Proof.
  split.
  - rewrite generate_rle_zero_row by (apply Nat.leb_le; reflexivity).
    rewrite Nat2Z.inj_mul. reflexivity.
  - split; reflexivity.
Qed.

(** ** Lemmas: [generate_get_glyph_index] *)

Lemma eval_index_snoc (code : list clause) (cl : clause) (c : nat) :
  eval_index (code ++ [cl]) c =
  match eval_index code c with
  | Some k => Some k
  | None => eval_clause cl c
  end.
Proof.
  induction code as [| cl' code IH]; simpl.
  - destruct (eval_clause cl c); reflexivity.
  - destruct (eval_clause cl' c); [reflexivity | exact IH].
Qed.

Lemma find_first_app (c : nat) (l1 l2 : list nat) :
  find_first c (l1 ++ l2) =
  match find_first c l1 with
  | Some k => Some k
  | None => option_map (Nat.add (length l1)) (find_first c l2)
  end.
Proof.
  induction l1 as [| x l1 IH]; simpl.
  - destruct (find_first c l2); reflexivity.
  - destruct (Nat.eqb x c); [reflexivity|]. rewrite IH.
    destruct (find_first c l1); [reflexivity|].
    destruct (find_first c l2); reflexivity.
Qed.

Lemma find_first_seq (c s n : nat) :
  find_first c (seq s n) =
  if Nat.leb s c && Nat.ltb c (s + n) then Some (c - s)%nat else None.
Proof.
  revert s. induction n as [| n IH]; intros s; simpl.
  - destruct (Nat.leb_spec s c), (Nat.ltb_spec c (s + 0)); simpl;
      reflexivity || lia.
  - rewrite IH.
    destruct (Nat.eqb_spec s c) as [<- | E].
    + rewrite Nat.leb_refl, Nat.sub_diag. simpl.
      destruct (Nat.ltb_spec s (s + S n)); [reflexivity | lia].
    + destruct (Nat.leb_spec (S s) c), (Nat.leb_spec s c),
        (Nat.ltb_spec c (S s + n)), (Nat.ltb_spec c (s + S n));
        simpl; try reflexivity; try lia.
      f_equal. lia.
Qed.

Lemma eval_range (rs rl base c : nat) : (1 <= rl)%nat ->
  eval_clause (generate_get_glyph_index_range rs rl base) c =
  if Nat.leb rs c && Nat.ltb c (rs + rl) then Some (base + (c - rs))%nat
  else None.
Proof.
  intros H. unfold generate_get_glyph_index_range.
  destruct (Nat.eqb_spec rl 1) as [-> | E]; simpl.
  - destruct (Nat.eqb_spec c rs) as [-> | E'].
    + rewrite Nat.leb_refl, Nat.sub_diag, Nat.add_0_r.
      destruct (Nat.ltb_spec rs (rs + 1)); [reflexivity | lia].
    + destruct (Nat.leb_spec rs c), (Nat.ltb_spec c (rs + 1)); simpl;
        reflexivity || lia.
  - destruct (Nat.leb_spec rs c), (Nat.ltb_spec c (rs + rl)); simpl;
      try reflexivity. f_equal. lia.
Qed.

Lemma firstn_snoc {A} (l : list A) (i : nat) (x : A) :
  nth_error l i = Some x -> firstn (S i) l = firstn i l ++ [x].
Proof.
  revert i. induction l as [| y l IH]; intros [| i] H; simpl in *;
    try discriminate.
  - injection H as ->. reflexivity.
  - rewrite (IH i H). reflexivity.
Qed.

Lemma ggi_loop_spec (chars : list nat) (n : nat) :
  forall i code rs rl,
    (1 <= rl <= i)%nat -> (i + n)%nat = length chars ->
    firstn i chars = firstn (i - rl) chars ++ seq rs rl ->
    (forall c, eval_index code c = find_first c (firstn (i - rl) chars)) ->
    exists code' rs' rl',
      ggi_loop chars n i code rs rl = Ok (code', rs', rl') /\
      (1 <= rl' <= length chars)%nat /\
      chars = firstn (length chars - rl') chars ++ seq rs' rl' /\
      (forall c, eval_index code' c
                 = find_first c (firstn (length chars - rl') chars)).
Proof.
  induction n as [| n IH]; intros i code rs rl Hrl Hlen Hpre Hcode.
  - exists code, rs, rl. rewrite Nat.add_0_r in Hlen. subst i.
    rewrite firstn_all in Hpre. auto.
  - assert (Hi : (i < length chars)%nat) by lia.
    pose proof (nth_error_nth' chars 0%nat Hi) as Hnth.
    set (c := nth i chars 0%nat) in *.
    cbn [ggi_loop]. rewrite (index_nth chars i 0%nat Hi). cbn [obind]. fold c.
    pose proof (firstn_snoc chars i c Hnth) as Hsnoc.
    destruct (Nat.eqb_spec c (rs + rl)) as [E | E].
    + apply IH; [lia | lia | |].
      * replace (S i - S rl)%nat with (i - rl)%nat by lia.
        rewrite Hsnoc, Hpre, seq_S, app_assoc, E. reflexivity.
      * replace (S i - S rl)%nat with (i - rl)%nat by lia. exact Hcode.
    + apply IH; [lia | lia | |].
      * replace (S i - 1)%nat with i by lia. rewrite Hsnoc. reflexivity.
      * intros c'. replace (S i - 1)%nat with i by lia.
        rewrite eval_index_snoc, Hcode, Hpre, find_first_app,
          eval_range by lia.
        destruct (find_first c' (firstn (i - rl) chars)); [reflexivity|].
        rewrite find_first_seq, length_firstn.
        replace (Nat.min (i - rl) (length chars)) with (i - rl)%nat by lia.
        destruct (Nat.leb rs c' && Nat.ltb c' (rs + rl)); reflexivity.
Qed.

Lemma generate_get_glyph_index_spec (chars : list nat) :
  chars <> [] ->
  exists code, generate_get_glyph_index chars = Ok code /\
               forall c, eval_index code c = find_first c chars.
Proof.
  intros Hne. destruct chars as [| c0 t] eqn:Ech; [contradiction|].
  rewrite <- Ech in *.
  assert (H0 : index chars 0 = Ok c0) by (rewrite Ech; reflexivity).
  destruct (ggi_loop_spec chars (length chars - 1) 1 [] c0 1)
    as (code & rs & rl & Hl & Hrl & Hsplit & Hcode).
  - lia.
  - rewrite Ech. simpl. lia.
  - rewrite Ech. reflexivity.
  - intros c. reflexivity.
  - exists (code ++ [generate_get_glyph_index_range rs rl
                       (length chars - rl)]).
    split.
    + unfold generate_get_glyph_index. rewrite H0. cbn [obind].
      rewrite Hl. reflexivity.
    + intros c. rewrite eval_index_snoc, Hcode.
      rewrite (f_equal (find_first c) Hsplit).
      rewrite find_first_app, eval_range by lia.
      destruct (find_first c (firstn (length chars - rl) chars));
        [reflexivity|].
      rewrite find_first_seq, length_firstn.
      replace (Nat.min (length chars - rl) (length chars))
        with (length chars - rl)%nat by lia.
      destruct (Nat.leb rs c && Nat.ltb c (rs + rl)); reflexivity.
Qed.

Lemma find_first_Some (c k : nat) (l : list nat) :
  find_first c l = Some k ->
  nth_error l k = Some c /\ forall j, (j < k)%nat -> nth j l 0%nat <> c.
Proof.
  revert k. induction l as [| x l IH]; intros k H; simpl in H; [discriminate|].
  destruct (Nat.eqb_spec x c) as [<- | E].
  - injection H as <-. split; [reflexivity | intros j Hj; lia].
  - destruct (find_first c l) as [k'|] eqn:F; [|discriminate].
    injection H as <-. destruct (IH k' eq_refl) as [H1 H2].
    split; [exact H1|]. intros [| j] Hj; simpl; [exact E | apply H2; lia].
Qed.

Lemma find_first_In (c : nat) (l : list nat) :
  In c l -> exists k, find_first c l = Some k.
Proof.
  induction l as [| x l IH]; simpl; intros H; [contradiction|].
  destruct (Nat.eqb_spec x c) as [<- | E]; [exists 0%nat; reflexivity|].
  destruct H as [-> | H]; [contradiction|].
  destruct (IH H) as [k Hk]. rewrite Hk. exists (S k). reflexivity.
Qed.

Lemma find_first_not_In (c : nat) (l : list nat) :
  ~ In c l -> find_first c l = None.
Proof.
  induction l as [| x l IH]; simpl; intros H; [reflexivity|].
  destruct (Nat.eqb_spec x c) as [<- | E]; [tauto|].
  rewrite IH by tauto. reflexivity.
Qed.

Lemma find_first_NoDup (l : list nat) (i : nat) :
  NoDup l -> (i < length l)%nat -> find_first (nth i l 0%nat) l = Some i.
Proof.
  revert i. induction l as [| x l IH]; intros i Hnd Hi; simpl in Hi; [lia|].
  inversion Hnd as [| ? ? Hx Hnd']; subst.
  destruct i as [| i]; simpl; [rewrite Nat.eqb_refl; reflexivity|].
  destruct (Nat.eqb_spec x (nth i l 0%nat)) as [E | E].
  - exfalso. apply Hx. rewrite E. apply nth_In. lia.
  - rewrite IH by (assumption || lia). reflexivity.
Qed.

Lemma Sorted_lt_NoDup (l : list nat) : Sorted lt l -> NoDup l.
Proof.
  intros H. apply Sorted_StronglySorted in H; [|intros x y z; lia].
  induction H as [| x l Hs IH Hall]; constructor; [|exact IH].
  intros Hin. rewrite Forall_forall in Hall. specialize (Hall x Hin). lia.
Qed.

(** ** Claims about [generate_get_glyph_index] *)

(** Claim C2.  For a strictly increasing, non-empty list of character
    codes, the compiled lookup closure maps the character at position [i]
    to [Some i] and every other character to [None] (the first matching
    [if] returns); [{1,2,3,7,8,10}] compiles to the ranges (1,3,0), (7,2,3),
    (10,1,5) and [{65}] to the single range (65,1,0). *)
Theorem generate_get_glyph_index_lookup (chars : list nat)
  (Hsorted : Sorted lt chars) (Hne : chars <> []) :
  (exists code,
     generate_get_glyph_index chars = Ok code /\
     (forall i, (i < length chars)%nat ->
                eval_index code (nth i chars 0%nat) = Some i) /\
     (forall c, ~ In c chars -> eval_index code c = None)) /\
  generate_get_glyph_index [1; 2; 3; 7; 8; 10]%nat
    = Ok (map (fun '(s, l, b) => generate_get_glyph_index_range s l b)
              [(1, 3, 0); (7, 2, 3); (10, 1, 5)]%nat) /\
  generate_get_glyph_index [65]%nat
    = Ok [generate_get_glyph_index_range 65 1 0].
Proof.
  split; [|split; reflexivity].
  destruct (generate_get_glyph_index_spec chars Hne) as (code & Hg & Hcode).
  exists code. split; [exact Hg|]. split.
  - intros i Hi. rewrite Hcode.
    apply find_first_NoDup; [apply Sorted_lt_NoDup; exact Hsorted | exact Hi].
  - intros c Hc. rewrite Hcode. apply find_first_not_In. exact Hc.
Qed.

Lemma generate_get_glyph_index_lookup_witness :
  (Sorted lt [1; 2; 3; 7; 8; 10]%nat /\ [1; 2; 3; 7; 8; 10]%nat <> []) /\
  (exists code,
     generate_get_glyph_index [1; 2; 3; 7; 8; 10]%nat = Ok code /\
     (forall i, (i < length [1; 2; 3; 7; 8; 10]%nat)%nat ->
                eval_index code (nth i [1; 2; 3; 7; 8; 10]%nat 0%nat) = Some i) /\
     (forall c, ~ In c [1; 2; 3; 7; 8; 10]%nat -> eval_index code c = None)) /\
  generate_get_glyph_index [1; 2; 3; 7; 8; 10]%nat
    = Ok (map (fun '(s, l, b) => generate_get_glyph_index_range s l b)
              [(1, 3, 0); (7, 2, 3); (10, 1, 5)]%nat) /\
  generate_get_glyph_index [65]%nat
    = Ok [generate_get_glyph_index_range 65 1 0].
Proof.
  assert (Hs : Sorted lt [1; 2; 3; 7; 8; 10]%nat)
    by (repeat constructor; lia).
  split; [split; [exact Hs | discriminate]|].
  apply generate_get_glyph_index_lookup; [exact Hs | discriminate].
Defined.

(** ** Lemmas: sorting and [generate] *)

Lemma insert_char_perm (c : nat) (l : list nat) :
  Permutation (c :: l) (insert_char c l).
Proof.
  induction l as [| x l IH]; simpl; [reflexivity|].
  destruct (Nat.leb c x); [reflexivity|].
  rewrite perm_swap. constructor. exact IH.
Qed.

Lemma insert_char_HdRel (a c : nat) (l : list nat) :
  HdRel le a l -> (a <= c)%nat -> HdRel le a (insert_char c l).
Proof.
  intros H Hac. destruct l as [| x l]; simpl.
  - constructor. exact Hac.
  - inversion H; subst. destruct (Nat.leb c x); constructor; assumption.
Qed.

Lemma insert_char_sorted (c : nat) (l : list nat) :
  Sorted le l -> Sorted le (insert_char c l).
Proof.
  induction l as [| x l IH]; simpl; intros H.
  - repeat constructor.
  - destruct (Nat.leb_spec c x) as [Hle | Hgt].
    + constructor; [exact H | constructor; exact Hle].
    + inversion H as [| ? ? Hs Hhd]; subst.
      constructor; [apply IH; exact Hs|].
      apply insert_char_HdRel; [exact Hhd | lia].
Qed.

Lemma sort_chars_sorted (l : list nat) : Sorted le (sort_chars l).
Proof.
  induction l as [| x l IH]; simpl; [constructor|].
  apply insert_char_sorted. exact IH.
Qed.

Lemma sort_chars_perm (l : list nat) : Permutation l (sort_chars l).
Proof.
  induction l as [| x l IH]; simpl; [reflexivity|].
  rewrite <- insert_char_perm. constructor. exact IH.
Qed.

Section GenerateFacts.

Variable set_char_size : Z -> bool.
Variable load_char : Z -> nat -> option GlyphSlot.
Variable size_metrics : Z -> option SizeMetrics.

Lemma generate_glyphs_ok (sz : Z) (cs : list nat) :
  (forall c, In c cs -> exists g, generate_glyph load_char sz c = Ok g) ->
  exists gs, generate_glyphs load_char sz cs = Ok gs /\
             Forall2 (fun c g => generate_glyph load_char sz c = Ok g) cs gs.
Proof.
  induction cs as [| c cs IH]; intros H; simpl.
  - exists []. split; [reflexivity | constructor].
  - destruct (H c (or_introl eq_refl)) as [g Hg]. rewrite Hg. cbn [obind].
    destruct IH as (gs & Hgs & Hall); [intros; apply H; right; assumption|].
    rewrite Hgs. exists (g :: gs). split; [reflexivity | constructor; assumption].
Qed.

Lemma generate_glyphs_panic (sz : Z) (cs : list nat) (c : nat) :
  In c cs -> (exists r, generate_glyph load_char sz c = Panic r) ->
  exists r, generate_glyphs load_char sz cs = Panic r.
Proof.
  induction cs as [| x cs IH]; intros Hin [r Hr]; simpl in *; [contradiction|].
  destruct (generate_glyph load_char sz x) as [g | r'] eqn:Ex;
    cbn [obind]; [| exists r'; reflexivity].
  destruct Hin as [-> | Hin]; [congruence|].
  destruct (IH Hin (ex_intro _ r Hr)) as [r'' Hr''].
  rewrite Hr''. exists r''. reflexivity.
Qed.

Lemma generate_glyphs_first_assert (sz : Z) (cs : list nat) :
  (forall c, In c cs -> (exists g, generate_glyph load_char sz c = Ok g) \/
                        generate_glyph load_char sz c = Panic AssertionFailed) ->
  (exists c, In c cs /\ generate_glyph load_char sz c = Panic AssertionFailed) ->
  generate_glyphs load_char sz cs = Panic AssertionFailed.
Proof.
  induction cs as [| x cs IH]; intros Hall [c [Hin Hc]]; simpl in *;
    [contradiction|].
  destruct (Hall x (or_introl eq_refl)) as [[g Hg] | Hx].
  - rewrite Hg. cbn [obind].
    destruct Hin as [-> | Hin]; [congruence|].
    rewrite IH; [reflexivity | intros; apply Hall; right; assumption |].
    exists c. split; assumption.
  - rewrite Hx. reflexivity.
Qed.

End GenerateFacts.

(** ** Claims about [Font::generate] *)

Section FontClaims.

Variable set_char_size : Z -> bool.
Variable load_char : Z -> nat -> option GlyphSlot.
Variable size_metrics : Z -> option SizeMetrics.

(** Claim C4 (amended).  [generate] sorts the requested characters but
    does not deduplicate them.  When FreeType succeeds, the glyph array
    holds one glyph per requested character occurrence, in ascending
    code-point order ([sort_chars subset], a sorted permutation of the
    input), and the compiled index maps each requested character to the
    position of its first occurrence in that array, which holds that
    character's glyph; other characters map to [None].  For "bda" the
    array is ordered a, b, d and the index gives 0, 1, 2. *)
Theorem generate_glyph_order (size : Z) (subset : list nat)
  (Hne : subset <> []) (Hset : set_char_size (size * 64) = true)
  (Hsm : size_metrics (size * 64) <> None)
  (Hgl : forall c, In c subset ->
         exists g, generate_glyph load_char (size * 64) c = Ok g) :
  (exists f,
    generate set_char_size load_char size_metrics size subset = Ok f /\
    Sorted le (sort_chars subset) /\ Permutation subset (sort_chars subset) /\
    Forall2 (fun c g => generate_glyph load_char (size * 64) c = Ok g)
            (sort_chars subset) (ft_glyphs f) /\
    (forall c, In c subset ->
       exists k, eval_index (ft_get_glyph_index f) c = Some k /\
                 nth_error (sort_chars subset) k = Some c /\
                 forall j, (j < k)%nat -> nth j (sort_chars subset) 0%nat <> c) /\
    (forall c, ~ In c subset -> eval_index (ft_get_glyph_index f) c = None)) /\
  sort_chars [98; 100; 97]%nat = [97; 98; 100]%nat /\
  (exists code,
    generate_get_glyph_index (sort_chars [98; 100; 97]%nat) = Ok code /\
    map (eval_index code) [97; 98; 100]%nat = [Some 0; Some 1; Some 2]%nat).
Proof.
  split; [| split; [reflexivity | eexists; split; reflexivity]].
  pose proof (sort_chars_perm subset) as Hperm.
  destruct (generate_glyphs_ok load_char (size * 64) (sort_chars subset))
    as (gs & Hgs & Hall).
  { intros c Hc. apply Hgl. apply Permutation_in with (sort_chars subset);
      [symmetry; exact Hperm | exact Hc]. }
  destruct (size_metrics (size * 64)) as [sm|] eqn:Esm; [|contradiction].
  destruct (generate_get_glyph_index_spec (sort_chars subset))
    as (code & Hcode & Heval).
  { intros E. rewrite E in Hperm. apply Hne.
    apply Permutation_nil. symmetry. exact Hperm. }
  exists (mk_font (font_ascender sm) (font_descender sm) gs code).
  split.
  { unfold generate. cbv zeta. rewrite Hset. cbn [unwrap obind].
    rewrite Hgs. cbn [obind]. rewrite Esm. cbn [unwrap obind].
    rewrite Hcode. reflexivity. }
  cbn [ft_glyphs ft_get_glyph_index].
  split; [apply sort_chars_sorted|]. split; [exact Hperm|].
  split; [exact Hall|]. split.
  - intros c Hc. rewrite Heval.
    destruct (find_first_In c (sort_chars subset)) as [k Hk].
    { apply Permutation_in with subset; assumption. }
    exists k. split; [exact Hk|]. apply find_first_Some. exact Hk.
  - intros c Hc. rewrite Heval. apply find_first_not_In.
    intros Hin. apply Hc. apply Permutation_in with (sort_chars subset);
      [symmetry; exact Hperm | exact Hin].
Qed.

(** Claim C8.  If some requested character renders (with [load_char]) to
    a glyph with a negative top bearing [bitmap_top], [generate] panics:
    no font is printed, and nothing corrects the bearing.  When FreeType
    accepts the size and every requested glyph loads and encodes, the
    panic is the failed [assert!(glyph.bitmap_top() >= 0)]. *)
Theorem generate_negative_bearing (size : Z) (subset : list nat) (c : nat)
  (slot : GlyphSlot) (Hin : In c subset)
  (Hload : load_char (size * 64) c = Some slot)
  (Htop : gs_bitmap_top slot < 0) :
  (exists r, generate set_char_size load_char size_metrics size subset
             = Panic r) /\
  (set_char_size (size * 64) = true ->
   (forall c', In c' subset ->
      exists slot' img, load_char (size * 64) c' = Some slot' /\
                        generate_rle_image (gs_bitmap slot') = Ok img) ->
   generate set_char_size load_char size_metrics size subset
     = Panic AssertionFailed).
Proof.
  pose proof (sort_chars_perm subset) as Hperm.
  assert (Hin' : In c (sort_chars subset))
    by (apply Permutation_in with subset; assumption).
  assert (Hneg : (0 <=? gs_bitmap_top slot) = false)
    by (apply Z.leb_gt; exact Htop).
  split.
  - unfold generate. cbv zeta.
    destruct (set_char_size (size * 64)); cbn [unwrap obind];
      [| exists UnwrapFailed; reflexivity].
    destruct (generate_glyphs_panic load_char (size * 64)
                (sort_chars subset) c Hin') as [r Hr].
    + unfold generate_glyph. rewrite Hload. cbn [unwrap obind].
      destruct (generate_rle_image (gs_bitmap slot)) as [img | r];
        cbn [obind]; [| exists r; reflexivity].
      unfold assert. rewrite Hneg. exists AssertionFailed. reflexivity.
    + rewrite Hr. exists r. reflexivity.
  - intros Hset Hok. unfold generate. cbv zeta. rewrite Hset.
    cbn [unwrap obind].
    rewrite (generate_glyphs_first_assert load_char (size * 64)
               (sort_chars subset)); [reflexivity | |].
    + intros c' Hc'.
      assert (Hc'' : In c' subset).
      { apply Permutation_in with (sort_chars subset);
          [symmetry; exact Hperm | exact Hc']. }
      destruct (Hok c' Hc'') as (slot' & img & Hl & Hi).
      unfold generate_glyph. rewrite Hl. cbn [unwrap obind]. rewrite Hi.
      cbn [obind]. unfold assert.
      destruct (0 <=? gs_bitmap_top slot'); cbn [obind];
        [left; eexists; reflexivity | right; reflexivity].
    + exists c. split; [exact Hin'|].
      destruct (Hok c Hin) as (slot' & img & Hl & Hi).
      rewrite Hload in Hl. injection Hl as <-.
      unfold generate_glyph. rewrite Hload. cbn [unwrap obind]. rewrite Hi.
      cbn [obind]. unfold assert. rewrite Hneg. reflexivity.
Qed.

End FontClaims.

(** Claim C4, counterexample.  Requesting "aa" (duplicates) gives two
    glyphs, not one glyph per distinct character. *)
Lemma generate_keeps_duplicates :
  match generate demo_set_char_size (demo_load_char (fun _ => 10))
          (demo_size_metrics (mk_size_metrics 768 (-192))) 12 [97; 97]%nat with
  | Ok f => length (ft_glyphs f) = 2%nat /\
            length (nodup Nat.eq_dec [97; 97]%nat) = 1%nat
  | Panic _ => False
  end.
Proof. vm_compute. split; reflexivity. Qed.

Lemma generate_glyph_order_witness :
  ([98; 100; 97]%nat <> [] /\ demo_set_char_size (12 * 64) = true /\
   demo_size_metrics (mk_size_metrics 768 (-192)) (12 * 64) <> None) /\
  (exists f,
    generate demo_set_char_size (demo_load_char (fun _ => 10))
      (demo_size_metrics (mk_size_metrics 768 (-192))) 12 [98; 100; 97]%nat
      = Ok f /\
    Sorted le (sort_chars [98; 100; 97]%nat) /\
    Permutation [98; 100; 97]%nat (sort_chars [98; 100; 97]%nat) /\
    Forall2 (fun c g => generate_glyph (demo_load_char (fun _ => 10))
                          (12 * 64) c = Ok g)
            (sort_chars [98; 100; 97]%nat) (ft_glyphs f) /\
    (forall c, In c [98; 100; 97]%nat ->
       exists k, eval_index (ft_get_glyph_index f) c = Some k /\
                 nth_error (sort_chars [98; 100; 97]%nat) k = Some c /\
                 forall j, (j < k)%nat ->
                   nth j (sort_chars [98; 100; 97]%nat) 0%nat <> c) /\
    (forall c, ~ In c [98; 100; 97]%nat ->
       eval_index (ft_get_glyph_index f) c = None)) /\
  sort_chars [98; 100; 97]%nat = [97; 98; 100]%nat /\
  (exists code,
    generate_get_glyph_index (sort_chars [98; 100; 97]%nat) = Ok code /\
    map (eval_index code) [97; 98; 100]%nat = [Some 0; Some 1; Some 2]%nat).
Proof.
  split; [split; [discriminate | split; [reflexivity | discriminate]]|].
  apply generate_glyph_order;
    [discriminate | reflexivity | discriminate |].
  intros c _. eexists. reflexivity.
Defined.

Lemma generate_negative_bearing_witness :
  (In 98%nat [98; 100; 97]%nat /\
   demo_load_char (fun c => if Nat.eqb c 98 then -1 else 10) (12 * 64) 98
     = Some (mk_glyph_slot (mk_bitmap [] 0 0 0) 0 (-1) 640) /\
   gs_bitmap_top (mk_glyph_slot (mk_bitmap [] 0 0 0) 0 (-1) 640) < 0) /\
  (exists r, generate demo_set_char_size
               (demo_load_char (fun c => if Nat.eqb c 98 then -1 else 10))
               (demo_size_metrics (mk_size_metrics 768 (-192)))
               12 [98; 100; 97]%nat = Panic r) /\
  (demo_set_char_size (12 * 64) = true ->
   (forall c', In c' [98; 100; 97]%nat ->
      exists slot' img,
        demo_load_char (fun c => if Nat.eqb c 98 then -1 else 10) (12 * 64) c'
          = Some slot' /\
        generate_rle_image (gs_bitmap slot') = Ok img) ->
   generate demo_set_char_size
     (demo_load_char (fun c => if Nat.eqb c 98 then -1 else 10))
     (demo_size_metrics (mk_size_metrics 768 (-192))) 12 [98; 100; 97]%nat
     = Panic AssertionFailed).
Proof.
  split; [split; [simpl; tauto | split; [reflexivity | simpl; lia]]|].
  apply (generate_negative_bearing demo_set_char_size
           (demo_load_char (fun c => if Nat.eqb c 98 then -1 else 10))
           (demo_size_metrics (mk_size_metrics 768 (-192)))
           12 [98; 100; 97]%nat 98%nat
           (mk_glyph_slot (mk_bitmap [] 0 0 0) 0 (-1) 640));
    [simpl; tauto | reflexivity | simpl; lia].
Defined.

(** Claim C9.  With no characters, [generate_get_glyph_index] fails on
    [chars[0]] (index out of bounds) and produces no code, and
    [generate] with an empty subset always panics, whatever FreeType
    does. *)
Theorem generate_empty_subset_panics :
  generate_get_glyph_index [] = Panic IndexOutOfBounds /\
  forall (set_char_size : Z -> bool) (load_char : Z -> nat -> option GlyphSlot)
         (size_metrics : Z -> option SizeMetrics) (size : Z),
    exists r, generate set_char_size load_char size_metrics size [] = Panic r.
Proof.
  split; [reflexivity|]. intros scs lc sm size.
  unfold generate. cbv zeta. cbn [sort_chars].
  destruct (scs (size * 64)); cbn [unwrap obind generate_glyphs];
    [| exists UnwrapFailed; reflexivity].
  destruct (sm (size * 64)); cbn [unwrap obind];
    [exists IndexOutOfBounds; reflexivity | exists UnwrapFailed; reflexivity].
Qed.

(** Claim C6 (code bug).  The ascender rounds up ([1] unit gives 1 px), but
    [-(size.descender + 63) / 64] does not round the descender's magnitude
    up: a descender of -1 unit gives 0 px, and so does a whole pixel
    (-64 units); the printed font carries these values. *)
Theorem font_descender_not_rounded_up :
  font_ascender (mk_size_metrics 1 0) = 1 /\
  font_descender (mk_size_metrics 0 (-1)) = 0 /\
  font_descender (mk_size_metrics 0 (-64)) = 0 /\
  match generate demo_set_char_size (demo_load_char (fun _ => 10))
          (demo_size_metrics (mk_size_metrics 1 (-1))) 12 [65]%nat with
  | Ok f => ft_ascender f = 1 /\ ft_descender f = 0
  | Panic _ => False
  end.
Proof. vm_compute. repeat split. Qed.

(** ** Lemmas: [generate_rle_image] *)
Lemma rle_step_shift (row out0 : list Z) (i : nat) (st : rle_state) :
  rle_step row i (shift_out out0 st) =
  match rle_step row i st with
  | Ok st' => Ok (shift_out out0 st')
  | Panic r => Panic r
  end.
Proof.
  unfold rle_step. destruct (index row (i / 8)) as [byte | r]; [|reflexivity].
  cbn [obind shift_out st_output st_run_color st_run_length st_bits].
  destruct (Z.eqb _ _); unfold shift_out; simpl; rewrite ?app_assoc; reflexivity.
Qed.

Lemma rle_loop_shift (row out0 : list Z) (n : nat) :
  forall i st, rle_loop row n i (shift_out out0 st) =
  match rle_loop row n i st with
  | Ok st' => Ok (shift_out out0 st')
  | Panic r => Panic r
  end.
Proof.
  induction n as [| n IH]; intros i st; [reflexivity|].
  cbn [rle_loop]. rewrite rle_step_shift.
  destruct (rle_step row i st); cbn [obind]; [apply IH | reflexivity].
Qed.

Lemma generate_rle_shift (out0 row : list Z) (width : nat) :
  generate_rle out0 row width =
  obind (generate_rle [] row width) (fun ws => Ok (out0 ++ ws)).
Proof.
  unfold generate_rle. destruct (index row 0) as [b0 | r]; [|reflexivity].
  cbn [obind].
  replace (mk_rle_state out0 (Z.shiftr (Z.land b0 128) 7) 0 0)
    with (shift_out out0 (mk_rle_state [] (Z.shiftr (Z.land b0 128) 7) 0 0))
    by (unfold shift_out; simpl; rewrite app_nil_r; reflexivity).
  rewrite rle_loop_shift.
  destruct (rle_loop row width 0 _); cbn [obind]; [|reflexivity].
  unfold shift_out. simpl. rewrite app_assoc. reflexivity.
Qed.

Lemma rle_loop_ok (row : list Z) (n : nat) :
  forall i st, (i + n <= 8 * length row)%nat ->
  exists st', rle_loop row n i st = Ok st'.
Proof.
  induction n as [| n IH]; intros i st H; [exists st; reflexivity|].
  cbn [rle_loop]. unfold rle_step at 1.
  rewrite (index_nth row (i / 8) 0) by (apply div8_lt; lia).
  cbn [obind]. destruct (Z.eqb _ _); cbn [obind]; apply IH; lia.
Qed.

Lemma generate_rle_ok (row : list Z) (width : nat) :
  row <> [] -> (width <= 8 * length row)%nat ->
  exists ws, generate_rle [] row width = Ok ws.
Proof.
  intros Hne Hlen. destruct row as [| b0 t]; [contradiction|].
  unfold generate_rle. cbn [index nth_error obind].
  destruct (rle_loop_ok (b0 :: t) width 0
              (mk_rle_state [] (Z.shiftr (Z.land b0 128) 7) 0 0) Hlen)
    as [st Hst].
  rewrite Hst. eexists. reflexivity.
Qed.

Lemma vec_set_app {A} (l1 l2 : list A) (x v : A) :
  vec_set (l1 ++ x :: l2) (length l1) v = Ok (l1 ++ v :: l2).
Proof.
  induction l1 as [| h l1 IH]; [reflexivity|].
  cbn [app length vec_set]. rewrite IH. reflexivity.
Qed.

Lemma slice_row (bm : Bitmap) (y : nat) :
  ((y + 1) * bm_pitch bm <= length (bm_buffer bm))%nat ->
  slice (bm_buffer bm) (y * bm_pitch bm) ((y + 1) * bm_pitch bm)
    = Ok (bitmap_row bm y) /\ length (bitmap_row bm y) = bm_pitch bm.
Proof.
  intros H. unfold slice, bitmap_row.
  assert (E : ((y + 1) * bm_pitch bm - y * bm_pitch bm)%nat = bm_pitch bm)
    by nia.
  rewrite E.
  destruct (Nat.leb_spec (y * bm_pitch bm) ((y + 1) * bm_pitch bm)); [|nia].
  destruct (Nat.leb_spec ((y + 1) * bm_pitch bm) (length (bm_buffer bm)));
    [|lia].
  split; [reflexivity|].
  rewrite length_firstn, length_skipn. nia.
Qed.

Lemma hdr_of_length (H : nat) (wss : list (list Z)) :
  length (hdr_of H wss) = (length wss + 1)%nat.
Proof. unfold hdr_of. rewrite length_map, length_seq. reflexivity. Qed.

Lemma hdr_of_snoc (H : nat) (wss : list (list Z)) (ws : list Z) :
  hdr_of H (wss ++ [ws]) =
  hdr_of H wss ++ [u16 (Z.of_nat (H + 1 + length (concat (wss ++ [ws]))))].
Proof.
  unfold hdr_of. rewrite length_app. simpl length.
  replace (length wss + 1 + 1)%nat with (S (length wss + 1)) by lia.
  rewrite seq_S, map_app. f_equal.
  - apply map_ext_in. intros k Hk. apply in_seq in Hk.
    rewrite firstn_app. replace (k - length wss)%nat with O by lia.
    rewrite firstn_O, app_nil_r. reflexivity.
  - simpl. rewrite firstn_all2 by (rewrite length_app; simpl; lia).
    reflexivity.
Qed.
Lemma rle_image_rows_spec (bm : Bitmap)
  (Hp : (1 <= bm_pitch bm)%nat) (Hw : (bm_width bm <= 8 * bm_pitch bm)%nat)
  (Hbuf : (bm_rows bm * bm_pitch bm <= length (bm_buffer bm))%nat) :
  forall n wss, (length wss + n)%nat = bm_rows bm ->
  exists wss',
    length wss' = bm_rows bm /\
    (forall k, (length wss <= k < bm_rows bm)%nat ->
       generate_rle [] (bitmap_row bm k) (bm_width bm) = Ok (nth k wss' [])) /\
    firstn (length wss) wss' = wss /\
    rle_image_rows bm n (length wss)
      (hdr_of (bm_rows bm) wss ++ repeat 0 (bm_rows bm - length wss)
         ++ concat wss)
    = Ok (hdr_of (bm_rows bm) wss' ++ concat wss').
Proof.
  induction n as [| n IH]; intros wss Hlen.
  - exists wss. rewrite Nat.add_0_r in Hlen.
    split; [exact Hlen|]. split; [intros k Hk; lia|].
    split; [apply firstn_all|].
    rewrite Hlen, Nat.sub_diag. reflexivity.
  - set (H := bm_rows bm) in *. set (y := length wss) in *.
    destruct (slice_row bm y) as [Hsl Hrl]; [fold H; nia|].
    destruct (generate_rle_ok (bitmap_row bm y) (bm_width bm)) as [ws Hws].
    { intros E. rewrite E in Hrl. simpl in Hrl. lia. }
    { rewrite Hrl. exact Hw. }
    destruct (IH (wss ++ [ws])) as (wss' & Hl' & Hk' & Hf' & Hr').
    { rewrite length_app. simpl. lia. }
    exists wss'. split; [exact Hl'|].
    rewrite length_app in Hk', Hf', Hr'. simpl length in Hk', Hf', Hr'.
    fold y in Hk', Hf', Hr'.
    assert (Hfy : firstn y wss' = wss).
    { replace (firstn y wss') with (firstn y (firstn (y + 1) wss'))
        by (rewrite firstn_firstn, Nat.min_l by lia; reflexivity).
      rewrite Hf'. unfold y. rewrite firstn_app, firstn_all, Nat.sub_diag, firstn_O,
        app_nil_r. reflexivity. }
    assert (Hny : nth y wss' [] = ws).
    { rewrite <- (firstn_skipn (y + 1) wss'), Hf', app_nth1
        by (rewrite length_app; simpl; lia).
      unfold y. rewrite app_nth2, Nat.sub_diag by lia. reflexivity. }
    split.
    { intros k Hk. destruct (Nat.eq_dec k y) as [-> | E].
      - rewrite Hny. exact Hws.
      - apply Hk'. lia. }
    split; [exact Hfy|].
    cbn [rle_image_rows]. rewrite Hsl. cbn [obind].
    rewrite generate_rle_shift, Hws. cbn [obind].
    replace (H - y)%nat with (S (H - (y + 1))) by lia.
    cbn [repeat app].
    rewrite <- app_assoc. cbn [app].
    replace (y + 1)%nat with (length (hdr_of H wss))
      by (rewrite hdr_of_length; reflexivity).
    rewrite vec_set_app. cbn [obind].
    rewrite hdr_of_length.
    replace (S y) with (y + 1)%nat by lia.
    rewrite <- Hr'. f_equal.
    rewrite hdr_of_snoc, concat_app, <- !app_assoc. cbn [concat app].
    rewrite app_nil_r. f_equal. f_equal. f_equal. f_equal.
    rewrite !length_app, hdr_of_length. cbn [length].
    rewrite !length_app, repeat_length. lia.
Qed.
Lemma generate_rle_image_shape (bm : Bitmap)
  (Hp : (1 <= bm_pitch bm)%nat) (Hw : (bm_width bm <= 8 * bm_pitch bm)%nat)
  (Hbuf : (bm_rows bm * bm_pitch bm <= length (bm_buffer bm))%nat) :
  exists wss,
    length wss = bm_rows bm /\
    (forall k, (k < bm_rows bm)%nat ->
       generate_rle [] (bitmap_row bm k) (bm_width bm) = Ok (nth k wss [])) /\
    generate_rle_image bm
      = Ok (mk_rle_image (hdr_of (bm_rows bm) wss ++ concat wss)
              (bm_width bm) (bm_rows bm)).
Proof.
  destruct (rle_image_rows_spec bm Hp Hw Hbuf (bm_rows bm) [])
    as (wss & Hl & Hk & _ & Hr); [reflexivity|].
  exists wss. split; [exact Hl|]. split; [intros k Hk'; apply Hk; simpl; lia|].
  unfold generate_rle_image. cbv zeta.
  rewrite repeat_length.
  replace (bm_rows bm + 1)%nat with (S (bm_rows bm)) by lia.
  cbn [repeat vec_set obind].
  simpl length in Hr. rewrite Nat.sub_0_r, app_nil_r in Hr.
  unfold hdr_of in Hr. simpl in Hr. rewrite Nat.add_0_r in Hr.
  replace (S (bm_rows bm)) with (bm_rows bm + 1)%nat by lia.
  rewrite Hr. reflexivity.
Qed.

Lemma nth_hdr (H : nat) (wss : list (list Z)) (k : nat) :
  (k <= H)%nat -> length wss = H ->
  nth k (hdr_of H wss ++ concat wss) 0
    = u16 (Z.of_nat (H + 1 + length (concat (firstn k wss)))).
Proof.
  intros Hk Hl. rewrite app_nth1 by (rewrite hdr_of_length; lia).
  unfold hdr_of.
  pose proof (map_nth
    (fun k => u16 (Z.of_nat (H + 1 + length (concat (firstn k wss)))))
    (seq 0 (length wss + 1)) 0%nat k) as E.
  cbv beta in E.
  rewrite (nth_indep _ 0 (u16 (Z.of_nat (H + 1 + length (concat (firstn 0 wss))))))
    by (rewrite length_map, length_seq; lia).
  rewrite E, seq_nth by lia. reflexivity.
Qed.

Lemma concat_firstn_le (l : list (list Z)) (i j : nat) :
  (i <= j)%nat ->
  (length (concat (firstn i l)) <= length (concat (firstn j l)))%nat.
Proof.
  intros Hij.
  replace (firstn i l) with (firstn i (firstn j l))
    by (rewrite firstn_firstn, Nat.min_l by lia; reflexivity).
  rewrite <- (firstn_skipn i (firstn j l)) at 2.
  rewrite concat_app, length_app. lia.
Qed.

Lemma concat_row_runs (wss : list (list Z)) (y : nat) :
  (y < length wss)%nat ->
  firstn (length (nth y wss []))
    (skipn (length (concat (firstn y wss))) (concat wss)) = nth y wss [].
Proof.
  revert y. induction wss as [|w ws IH]; intros [|y] Hy; cbn [length] in Hy;
    try lia.
  - cbn [firstn concat nth skipn length].
    rewrite firstn_app, Nat.sub_diag, firstn_all. cbn [firstn].
    apply app_nil_r.
  - cbn [firstn concat nth]. rewrite length_app, skipn_app,
      (skipn_all2 w) by lia. cbn [app].
    replace (length w + length (concat (firstn y ws)) - length w)%nat
      with (length (concat (firstn y ws))) by lia.
    apply IH. lia.
Qed.

(** ** Claims about [generate_rle_image] *)

(** Claim C3 (amended).  For a bitmap of [H] rows whose rows are non-empty
    ([pitch >= 1]) and hold the [width] pixels, [generate_rle_image]
    succeeds; the header has [H + 1] words [data[0..=H]], word [y] being
    the offset where row [y]'s runs start.  As long as the total word count
    fits in a u16: [data[0] = H + 1], the header is non-decreasing,
    [data[H]] (not [data[H-1]]) equals the total word count, and
    [data[y+1] = data[y] +] the number of runs of row [y], the runs of
    row [y] being the words [data[data[y] .. data[y+1]]], so [data[H-1]]
    plus the runs of the last row is the total. *)
Theorem generate_rle_image_header (bm : Bitmap)
  (Hp : (1 <= bm_pitch bm)%nat) (Hw : (bm_width bm <= 8 * bm_pitch bm)%nat)
  (Hbuf : (bm_rows bm * bm_pitch bm <= length (bm_buffer bm))%nat) :
  exists img,
    generate_rle_image bm = Ok img /\ rle_height img = bm_rows bm /\
    (Z.of_nat (length (rle_data img)) < 65536 ->
     nth 0 (rle_data img) 0 = Z.of_nat (bm_rows bm) + 1 /\
     (forall i j, (i <= j <= bm_rows bm)%nat ->
        nth i (rle_data img) 0 <= nth j (rle_data img) 0) /\
     nth (bm_rows bm) (rle_data img) 0 = Z.of_nat (length (rle_data img)) /\
     (forall y, (y < bm_rows bm)%nat ->
        exists ws, generate_rle [] (bitmap_row bm y) (bm_width bm) = Ok ws /\
          nth (y + 1) (rle_data img) 0
            = nth y (rle_data img) 0 + Z.of_nat (length ws) /\
          firstn (length ws)
            (skipn (Z.to_nat (nth y (rle_data img) 0)) (rle_data img)) = ws)).
Proof.
  destruct (generate_rle_image_shape bm Hp Hw Hbuf) as (wss & Hl & Hk & Hg).
  eexists. split; [exact Hg|]. split; [reflexivity|].
  cbn [rle_data]. set (H := bm_rows bm) in *. intros Hb.
  assert (Hlen : length (hdr_of H wss ++ concat wss)
                 = (H + 1 + length (concat wss))%nat).
  { rewrite length_app, hdr_of_length. lia. }
  rewrite Hlen in Hb.
  assert (Hn : forall k, (k <= H)%nat ->
     nth k (hdr_of H wss ++ concat wss) 0
     = Z.of_nat (H + 1 + length (concat (firstn k wss)))).
  { intros k Hk'. rewrite nth_hdr by assumption. unfold u16.
    apply Z.mod_small. pose proof (concat_firstn_le wss k (length wss)).
    rewrite firstn_all in H0. lia. }
  split; [rewrite Hn by lia; simpl; lia|].
  split.
  { intros i j Hij. rewrite !Hn by lia.
    pose proof (concat_firstn_le wss i j). lia. }
  split.
  { rewrite Hn, Hlen by lia. rewrite <- Hl, firstn_all. reflexivity. }
  intros y Hy. exists (nth y wss []). split; [apply Hk; exact Hy|].
  rewrite !Hn by lia. replace (y + 1)%nat with (S y) by lia.
  rewrite (firstn_snoc wss y (nth y wss [])) by
    (apply nth_error_nth'; lia).
  split.
  { rewrite concat_app, length_app. simpl. rewrite app_nil_r. lia. }
  rewrite Nat2Z.id, skipn_app,
    (skipn_all2 (hdr_of H wss)) by (rewrite hdr_of_length; lia).
  cbn [app]. rewrite hdr_of_length, Hl.
  replace (H + 1 + length (concat (firstn y wss)) - (H + 1))%nat
    with (length (concat (firstn y wss))) by lia.
  apply concat_row_runs. lia.
Qed.

Lemma generate_rle_image_header_witness :
  ((1 <= bm_pitch (mk_bitmap [255; 0; 7; 170]%Z 2 12 2))%nat /\
   (bm_width (mk_bitmap [255; 0; 7; 170]%Z 2 12 2)
      <= 8 * bm_pitch (mk_bitmap [255; 0; 7; 170]%Z 2 12 2))%nat /\
   (bm_rows (mk_bitmap [255; 0; 7; 170]%Z 2 12 2)
      * bm_pitch (mk_bitmap [255; 0; 7; 170]%Z 2 12 2)
      <= length (bm_buffer (mk_bitmap [255; 0; 7; 170]%Z 2 12 2)))%nat) /\
  exists img,
    generate_rle_image (mk_bitmap [255; 0; 7; 170]%Z 2 12 2) = Ok img /\
    rle_height img = 2%nat /\
    (Z.of_nat (length (rle_data img)) < 65536 ->
     nth 0 (rle_data img) 0 = Z.of_nat 2 + 1 /\
     (forall i j, (i <= j <= 2)%nat ->
        nth i (rle_data img) 0 <= nth j (rle_data img) 0) /\
     nth 2 (rle_data img) 0 = Z.of_nat (length (rle_data img)) /\
     (forall y, (y < 2)%nat ->
        exists ws,
          generate_rle [] (bitmap_row (mk_bitmap [255; 0; 7; 170]%Z 2 12 2) y)
            12 = Ok ws /\
          nth (y + 1) (rle_data img) 0
            = nth y (rle_data img) 0 + Z.of_nat (length ws) /\
          firstn (length ws)
            (skipn (Z.to_nat (nth y (rle_data img) 0)) (rle_data img)) = ws)).
Proof.
  split; [simpl; lia|].
  apply (generate_rle_image_header (mk_bitmap [255; 0; 7; 170]%Z 2 12 2));
    simpl; lia.
Defined.

(** Claim C3, counterexample.  One row of one pixel: the data is
    [[2; 3; 1]], so [header[H-1] = header[0] = 2] while the image has 3
    words. *)
Lemma generate_rle_image_last_header :
  generate_rle_image (mk_bitmap [0]%Z 1 1 1)
    = Ok (mk_rle_image [2; 3; 1] 1 1) /\
  nth (1 - 1) [2; 3; 1] 0 = 2 /\ Z.of_nat (length [2; 3; 1]) = 3.
Proof. split; [reflexivity | split; reflexivity]. Qed.

(** ** Claims about [Image::load] *)

(** Without overflow of the u8 channel sum, [avg_color] is the mean of
    the three channels. *)
Lemma avg_color_no_overflow (p : RGBA) :
  0 <= px_r p -> 0 <= px_g p -> 0 <= px_b p ->
  px_r p + px_g p + px_b p < 256 ->
  avg_color p = (px_r p + px_g p + px_b p) / 3.
Proof.
  intros Hr Hg Hb Hs. unfold avg_color, u8.
  rewrite (Z.mod_small (px_r p + px_g p)) by lia.
  rewrite Z.mod_small by lia. reflexivity.
Qed.

(** Claim C5 (code bug).  [pixel.r + pixel.g + pixel.b] is a u8 sum: it
    overflows as soon as the channels add up to 256 or more (a panic in a
    debug build, a wrap-around modulo 256 in a release build, modelled
    here).  For the grey pixel (128, 128, 128) with alpha 255 the mean of
    the channels is 128 and the claimed level is 127, so the bit should be
    set; the code computes avg_color = 384 mod 256 / 3 = 42, level = 213
    and leaves it clear.  A white opaque pixel, whose claimed level is 0,
    gets avg_color 84 and level 171, so it is not set either way round
    from the claim. *)
Theorem pixel_on_channel_sum_overflow :
  let p := mk_rgba 128 128 128 255 in
  let w := mk_rgba 255 255 255 255 in
  (px_r p + px_g p + px_b p) / 3 = 128 /\
  (255 - (px_r p + px_g p + px_b p) / 3) * px_a p / 255 = 127 /\
  avg_color p = 42 /\ level p = 213 /\ pixel_on p = false /\
  (255 - (px_r w + px_g w + px_b w) / 3) * px_a w / 255 = 0 /\
  avg_color w = 84 /\ level w = 171 /\ pixel_on w = false.
Proof. vm_compute. repeat split. Qed.


Lemma vec_or_spec (v : list Z) (i : nat) (x : Z) :
  (i < length v)%nat ->
  exists v', vec_or v i x = Ok v' /\ length v' = length v /\
    forall k, nth k v' 0 = if Nat.eqb k i then Z.lor (nth k v 0) x else nth k v 0.
Proof.
  revert i; induction v as [|h t IH]; intros i Hi; [simpl in Hi; lia|].
  destruct i as [|i]; simpl.
  - exists (Z.lor h x :: t); split; [reflexivity|split; [reflexivity|]].
    intros [|k]; reflexivity.
  - simpl in Hi. destruct (IH i ltac:(lia)) as (t' & E & L & N).
    rewrite E; simpl. exists (h :: t'); split; [reflexivity|split; [simpl; lia|]].
    intros [|k]; [reflexivity|]. simpl. apply N.
Qed.

Lemma u8_bit (x : nat) :
  u8 (Z.shiftl 1 (Z.of_nat (Nat.land x 7))) = 2 ^ Z.of_nat (x mod 8).
Proof.
  replace (Nat.land x 7) with (x mod 8)%nat
    by (change 7%nat with (Nat.ones 3); rewrite Nat.land_ones; reflexivity).
  rewrite Z.shiftl_1_l. unfold u8. apply Z.mod_small.
  assert (H8 : (x mod 8 < 8)%nat) by (apply Nat.mod_upper_bound; lia).
  split; [apply Z.pow_nonneg; lia|].
  apply Z.lt_le_trans with (2 ^ 8); [apply Z.pow_lt_mono_r; lia | vm_compute; discriminate].
Qed.

Lemma testbit_lor_pow (a : Z) (j b : Z) : 0 <= j -> 0 <= b ->
  Z.testbit (Z.lor a (2 ^ j)) b = Z.testbit a b || Z.eqb b j.
Proof.
  intros Hj Hb. rewrite Z.lor_spec, Z.pow2_bits_eqb by lia.
  f_equal. apply Z.eqb_sym.
Qed.

Lemma stride_div (w x : nat) : (x < w)%nat -> (x / 8 < (w + 7) / 8)%nat.
Proof.
  intro H. apply Nat.Div0.div_lt_upper_bound.
  pose proof (Nat.div_mod (w + 7) 8 ltac:(lia)).
  pose proof (Nat.mod_upper_bound (w + 7) 8 ltac:(lia)).
  pose proof (Nat.div_mod x 8 ltac:(lia)).
  pose proof (Nat.mod_upper_bound x 8 ltac:(lia)).
  nia.
Qed.

Lemma cell_inj (stride y x y' x' : nat) :
  (x / 8 < stride)%nat -> (x' / 8 < stride)%nat ->
  (y * stride + x / 8 = y' * stride + x' / 8)%nat ->
  (x mod 8 = x' mod 8)%nat -> y = y' /\ x = x'.
Proof.
  intros H1 H2 E M.
  assert (y = y') by nia. subst y'.
  assert (x / 8 = x' / 8)%nat by lia.
  split; [reflexivity|].
  rewrite (Nat.div_mod x 8), (Nat.div_mod x' 8) by lia. lia.
Qed.

Lemma nth_pixel_index (buf : list RGBA) (i : nat) (d : RGBA) :
  (i < length buf)%nat -> index buf i = Ok (nth i buf d).
Proof.
  intro H. unfold index. rewrite (nth_error_nth' buf d H). reflexivity.
Qed.

Lemma load_row_spec (img : Decoded) (stride y : nat)
  (Hs : stride = ((dec_width img + 7) / 8)%nat)
  (Hy : (y < dec_height img)%nat)
  (Hbuf : length (dec_buffer img) = (dec_width img * dec_height img)%nat) :
  forall n x data, (x + n <= dec_width img)%nat ->
  length data = (stride * dec_height img)%nat ->
  exists data', load_row img stride y n x data = Ok data' /\
    length data' = length data /\
    forall k b, 0 <= b ->
      (Z.testbit (nth k data' 0) b = true <->
       Z.testbit (nth k data 0) b = true \/
       exists x', (x <= x' < x + n)%nat /\
         pixel_on (nth (y * dec_width img + x') (dec_buffer img) pixel0) = true /\
         k = (y * stride + x' / 8)%nat /\ b = Z.of_nat (x' mod 8)).
Proof.
  induction n as [|n IH]; intros x data Hx Hl.
  - exists data; split; [reflexivity|split; [reflexivity|]].
    intros k b _. split; [tauto|]. intros [H|(x' & Hx' & _)]; [exact H|lia].
  - cbn [load_row]. rewrite (nth_pixel_index _ _ pixel0) by nia. cbn [obind].
    assert (Hc : (y * stride + x / 8 < length data)%nat).
    { rewrite Hl. pose proof (stride_div (dec_width img) x ltac:(lia)). subst stride. nia. }
    destruct (pixel_on (nth (y * dec_width img + x) (dec_buffer img) pixel0)) eqn:On.
    + destruct (vec_or_spec data _ (u8 (Z.shiftl 1 (Z.of_nat (Nat.land x 7)))) Hc)
        as (d1 & E1 & L1 & N1).
      rewrite E1. cbn [obind].
      destruct (IH (S x) d1 ltac:(lia) ltac:(lia)) as (d2 & E2 & L2 & N2).
      exists d2; split; [exact E2|split; [lia|]].
      intros k b Hb. rewrite N2 by exact Hb. rewrite N1.
      destruct (Nat.eqb_spec k (y * stride + x / 8)) as [Ek|Ek].
      * rewrite u8_bit, testbit_lor_pow by lia.
        split.
        -- intros [H|(x' & Hx' & On' & Hk & Hb')].
           ++ apply orb_true_iff in H. destruct H as [H|H]; [left; exact H|].
              right. exists x. apply Z.eqb_eq in H. repeat split; auto; lia.
           ++ right. exists x'. repeat split; auto; lia.
        -- intros [H|(x' & Hx' & On' & Hk & Hb')].
           ++ left. rewrite H. reflexivity.
           ++ destruct (Nat.eq_dec x' x) as [->|Hne].
              ** left. apply orb_true_iff. right. apply Z.eqb_eq. exact Hb'.
              ** right. exists x'. repeat split; auto; lia.
      * split.
        -- intros [H|(x' & Hx' & On' & Hk & Hb')]; [left; exact H|].
           right. exists x'. repeat split; auto; lia.
        -- intros [H|(x' & Hx' & On' & Hk & Hb')]; [left; exact H|].
           destruct (Nat.eq_dec x' x) as [->|Hne]; [congruence|].
           right. exists x'. repeat split; auto; lia.
    + cbn [obind].
      destruct (IH (S x) data ltac:(lia) Hl) as (d2 & E2 & L2 & N2).
      exists d2; split; [exact E2|split; [exact L2|]].
      intros k b Hb. rewrite N2 by exact Hb. split.
      * intros [H|(x' & Hx' & On' & Hk & Hb')]; [left; exact H|].
        right. exists x'. repeat split; auto; lia.
      * intros [H|(x' & Hx' & On' & Hk & Hb')]; [left; exact H|].
        destruct (Nat.eq_dec x' x) as [->|Hne]; [congruence|].
        right. exists x'. repeat split; auto; lia.
Qed.

Lemma load_rows_spec (img : Decoded) (stride : nat)
  (Hs : stride = ((dec_width img + 7) / 8)%nat)
  (Hbuf : length (dec_buffer img) = (dec_width img * dec_height img)%nat) :
  forall n y data, (y + n <= dec_height img)%nat ->
  length data = (stride * dec_height img)%nat ->
  exists data', load_rows img stride n y data = Ok data' /\
    length data' = length data /\
    forall k b, 0 <= b ->
      (Z.testbit (nth k data' 0) b = true <->
       Z.testbit (nth k data 0) b = true \/
       exists y' x', (y <= y' < y + n)%nat /\ (x' < dec_width img)%nat /\
         pixel_on (nth (y' * dec_width img + x') (dec_buffer img) pixel0) = true /\
         k = (y' * stride + x' / 8)%nat /\ b = Z.of_nat (x' mod 8)).
Proof.
  induction n as [|n IH]; intros y data Hy Hl.
  - exists data; split; [reflexivity|split; [reflexivity|]].
    intros k b _. split; [tauto|]. intros [H|(y' & x' & Hy' & _)]; [exact H|lia].
  - simpl.
    destruct (load_row_spec img stride y Hs ltac:(lia) Hbuf (dec_width img) 0 data
                ltac:(lia) Hl) as (d1 & E1 & L1 & N1).
    rewrite E1. cbn [obind].
    destruct (IH (S y) d1 ltac:(lia) ltac:(lia)) as (d2 & E2 & L2 & N2).
    exists d2; split; [exact E2|split; [lia|]].
    intros k b Hb. rewrite N2, N1 by exact Hb. split.
    + intros [[H|(x' & Hx' & On' & Hk & Hb')]|(y' & x' & Hy' & Hx' & On' & Hk & Hb')].
      * left; exact H.
      * right. exists y, x'. repeat split; auto; lia.
      * right. exists y', x'. repeat split; auto; lia.
    + intros [H|(y' & x' & Hy' & Hx' & On' & Hk & Hb')]; [left; left; exact H|].
      destruct (Nat.eq_dec y' y) as [->|Hne].
      * left. right. exists x'. repeat split; auto; lia.
      * right. exists y', x'. repeat split; auto; lia.
Qed.

(** Claim C10.  In the buffer built by [Image::load] (stride
    [(width + 7) / 8] bytes per row), pixel [x] of row [y] is the bit
    [x mod 8], counted from the least significant bit, of byte
    [y * stride + x / 8]: that bit is set exactly when the pixel is
    foreground, and no other bit of the buffer is set.  The glyph path
    reads the other way round: [generate_rle] takes bit [7 - i mod 8], so
    the byte [1] (only bit 0 set) is read as seven background pixels and
    then one foreground pixel, the words [7] and [0x8001]. *)
Theorem image_load_bit_order (img : Decoded)
  (Hbuf : length (dec_buffer img) = (dec_width img * dec_height img)%nat) :
  exists im, image_load img = Ok im /\
    im_stride im = ((dec_width img + 7) / 8)%nat /\
    length (im_data im) = (im_stride im * dec_height img)%nat /\
    (forall y x, (y < dec_height img)%nat -> (x < dec_width img)%nat ->
       Z.testbit (nth (y * im_stride im + x / 8) (im_data im) 0) (Z.of_nat (x mod 8))
       = pixel_on (nth (y * dec_width img + x) (dec_buffer img) pixel0)) /\
    (forall k b, 0 <= b ->
       Z.testbit (nth k (im_data im) 0) b = true ->
       exists y x, (y < dec_height img)%nat /\ (x < dec_width img)%nat /\
         k = (y * im_stride im + x / 8)%nat /\ b = Z.of_nat (x mod 8)) /\
    generate_rle [] [1] 8 = Ok [7; 32769].
Proof.
  set (stride := ((dec_width img + 7) / 8)%nat).
  destruct (load_rows_spec img stride eq_refl Hbuf (dec_height img) 0
              (repeat 0 (stride * dec_height img)) ltac:(lia)
              ltac:(apply repeat_length)) as (d & E & L & N).
  assert (N0 : forall k b, 0 <= b ->
     (Z.testbit (nth k d 0) b = true <->
      exists y' x', (y' < dec_height img)%nat /\ (x' < dec_width img)%nat /\
         pixel_on (nth (y' * dec_width img + x') (dec_buffer img) pixel0) = true /\
         k = (y' * stride + x' / 8)%nat /\ b = Z.of_nat (x' mod 8))).
  { intros k b Hb. rewrite N by exact Hb.
    assert (Z0 : nth k (repeat 0 (stride * dec_height img)) 0 = 0).
    { destruct (Nat.lt_ge_cases k (stride * dec_height img)).
      - apply nth_repeat_lt; assumption.
      - apply nth_overflow. rewrite repeat_length. assumption. }
    rewrite Z0, Z.testbit_0_l. split.
    - intros [H|(y' & x' & Hy' & Hx' & R)]; [discriminate|].
      exists y', x'. split; [lia|split; [exact Hx'|exact R]].
    - intros (y' & x' & Hy' & Hx' & R). right. exists y', x'.
      split; [lia|split; [exact Hx'|exact R]]. }
  unfold image_load. cbn zeta. fold stride. rewrite E. cbn [obind].
  exists (mk_image d stride (dec_width img) (dec_height img)).
  cbn [im_stride im_data].
  split; [reflexivity|split; [reflexivity|split; [|split; [|split]]]].
  - rewrite L, repeat_length. reflexivity.
  - intros y x Hy Hx.
    destruct (pixel_on (nth (y * dec_width img + x) (dec_buffer img) pixel0)) eqn:On.
    + apply N0; [lia|]. exists y, x. repeat split; auto.
    + destruct (Z.testbit (nth (y * stride + x / 8) d 0) (Z.of_nat (x mod 8))) eqn:T;
        [|reflexivity].
      apply N0 in T; [|lia].
      destruct T as (y' & x' & Hy' & Hx' & On' & Hk & Hb').
      destruct (cell_inj stride y x y' x' (stride_div _ _ Hx) (stride_div _ _ Hx') Hk
                  ltac:(lia)) as [<- <-].
      congruence.
  - intros k b Hb T. apply N0 in T; [|exact Hb].
    destruct T as (y' & x' & Hy' & Hx' & _ & Hk & Hb').
    exists y', x'. repeat split; assumption.
  - reflexivity.
Qed.

Lemma image_load_bit_order_witness :
  length (dec_buffer (mk_decoded
     [mk_rgba 0 0 0 0; mk_rgba 0 0 0 255; mk_rgba 0 0 0 0;
      mk_rgba 10 10 10 255; mk_rgba 0 0 0 0; mk_rgba 255 255 255 255] 3 2))
   = (dec_width (mk_decoded
     [mk_rgba 0 0 0 0; mk_rgba 0 0 0 255; mk_rgba 0 0 0 0;
      mk_rgba 10 10 10 255; mk_rgba 0 0 0 0; mk_rgba 255 255 255 255] 3 2)
      * dec_height (mk_decoded
     [mk_rgba 0 0 0 0; mk_rgba 0 0 0 255; mk_rgba 0 0 0 0;
      mk_rgba 10 10 10 255; mk_rgba 0 0 0 0; mk_rgba 255 255 255 255] 3 2))%nat
  /\ exists im, image_load (mk_decoded
     [mk_rgba 0 0 0 0; mk_rgba 0 0 0 255; mk_rgba 0 0 0 0;
      mk_rgba 10 10 10 255; mk_rgba 0 0 0 0; mk_rgba 255 255 255 255] 3 2)
     = Ok im /\ im_data im = [5; 2].
Proof.
  split; [reflexivity|].
  destruct (image_load_bit_order (mk_decoded
     [mk_rgba 0 0 0 0; mk_rgba 0 0 0 255; mk_rgba 0 0 0 0;
      mk_rgba 10 10 10 255; mk_rgba 0 0 0 0; mk_rgba 255 255 255 255] 3 2)
     eq_refl) as (im & E & _).
  exists im. split; [exact E|].
  vm_compute in E. injection E as <-. reflexivity.
Defined.

(** * Further properties of the code *)

(** ** Lemmas *)
Lemma rle_loop_panic_reason (row : list Z) (n : nat) :
  forall i st r, rle_loop row n i st = Panic r -> r = IndexOutOfBounds.
Proof.
  induction n as [| n IH]; intros i st r H; [discriminate|].
  cbn [rle_loop] in H. unfold rle_step in H at 1. unfold index in H.
  destruct (nth_error row (i / 8)); cbn [obind] in H; [|congruence].
  destruct (Z.eqb _ _); cbn [obind] in H; eapply IH; exact H.
Qed.
Lemma rle_loop_panic (row : list Z) (n : nat) :
  forall i st, (i <= 8 * length row < i + n)%nat ->
  rle_loop row n i st = Panic IndexOutOfBounds.
Proof.
  induction n as [| n IH]; intros i st H; [lia|].
  cbn [rle_loop]. unfold rle_step at 1.
  destruct (Nat.eq_dec i (8 * length row)) as [->|Hne].
  - unfold index. rewrite (proj2 (nth_error_None row _))
      by (rewrite Nat.mul_comm, Nat.div_mul; lia).
    reflexivity.
  - rewrite (index_nth row (i / 8) 0) by (apply div8_lt; lia).
    cbn [obind]. destruct (Z.eqb _ _); cbn [obind]; apply IH; lia.
Qed.
Lemma rle_step_index_app (row extra : list Z) (i : nat) (st : rle_state) :
  (i / 8 < length row)%nat ->
  rle_step (row ++ extra) i st = rle_step row i st.
Proof.
  intros H. unfold rle_step, index. rewrite nth_error_app1 by exact H.
  reflexivity.
Qed.
Lemma rle_loop_app (row extra : list Z) (n : nat) :
  forall i st, (i + n <= 8 * length row)%nat ->
  rle_loop (row ++ extra) n i st = rle_loop row n i st.
Proof.
  induction n as [| n IH]; intros i st H; [reflexivity|].
  cbn [rle_loop]. rewrite rle_step_index_app by (apply div8_lt; lia).
  destruct (rle_step row i st); cbn [obind]; [apply IH; lia|reflexivity].
Qed.
Lemma first_bit (b : Z) :
  Z.shiftr (Z.land b 128) 7 = Z.land (Z.shiftr b 7) 1.
Proof.
  apply Z.bits_inj'. intros m Hm.
  rewrite Z.shiftr_spec, !Z.land_spec, Z.shiftr_spec by lia.
  f_equal. change 128 with (Z.shiftl 1 7). rewrite Z.shiftl_spec by lia.
  f_equal. lia.
Qed.
Lemma rle_loop_count (row : list Z) (n : nat) :
  forall i st, (i + n <= 8 * length row)%nat ->
  st_bits st = (i mod 8)%nat -> st_run_color st = row_bit row (i - 1) ->
  exists st', rle_loop row n i st = Ok st' /\
    st_run_color st' = row_bit row (i + n - 1) /\
    st_bits st' = ((i + n) mod 8)%nat /\
    length (st_output st') = (length (st_output st) + length (filter
      (fun j => negb (Z.eqb (row_bit row j) (row_bit row (j - 1)))) (seq i n)))%nat.
Proof.
  induction n as [| n IH]; intros i st H Hb Hc.
  - exists st. rewrite !Nat.add_0_r. cbn [seq filter length].
    split; [reflexivity|]. split; [exact Hc|]. split; [exact Hb|lia].
  - cbn [rle_loop]. unfold rle_step at 1.
    rewrite (index_nth row (i / 8) 0) by (apply div8_lt; lia).
    cbn [obind]. rewrite Hb, bits_next.
    change (Z.land (Z.shiftr (nth (i / 8) row 0) (Z.of_nat (7 - i mod 8))) 1)
      with (row_bit row i).
    cbn [seq filter]. rewrite <- Hc.
    destruct (Z.eqb_spec (row_bit row i) (st_run_color st)) as [E|E];
      cbn [obind negb].
    + assert (Hc' : st_run_color st = row_bit row (S i - 1))
        by (rewrite <- E; f_equal; lia).
      destruct (IH (S i) (mk_rle_state (st_output st) (st_run_color st)
                   (u16 (st_run_length st + 1)) (S i mod 8)) ltac:(lia) eq_refl Hc')
        as (st' & H1 & H2 & H3 & H4).
      exists st'. split; [exact H1|].
        replace (i + S n)%nat with (S i + n)%nat by lia.
        repeat split; [exact H2 | exact H3 | rewrite H4; reflexivity].
    + assert (Hc' : row_bit row i = row_bit row (S i - 1)) by (f_equal; lia).
      destruct (IH (S i) (mk_rle_state
                   (st_output st ++ [pack_run (st_run_color st) (st_run_length st)])
                   (row_bit row i) 1 (S i mod 8)) ltac:(lia) eq_refl Hc')
        as (st' & H1 & H2 & H3 & H4).
      exists st'. split; [exact H1|].
        replace (i + S n)%nat with (S i + n)%nat by lia.
        repeat split; [exact H2 | exact H3 |].
        rewrite H4. cbn [st_output]. rewrite length_app. cbn [length]. lia.
Qed.
Lemma generate_rle_Ok_cond (out row : list Z) (width : nat) (ws : list Z) :
  generate_rle out row width = Ok ws ->
  row <> [] /\ (width <= 8 * length row)%nat.
Proof.
  intros H. split.
  - intros ->. discriminate H.
  - destruct (Nat.le_gt_cases width (8 * length row)) as [Hl|Hl]; [exact Hl|].
    exfalso. destruct row as [| b0 t]; [discriminate H|].
    unfold generate_rle in H. cbn [index nth_error obind] in H.
    rewrite rle_loop_panic in H by lia. discriminate H.
Qed.
Lemma generate_rle_panic_reason (out row : list Z) (width : nat) (r : panic_reason) :
  generate_rle out row width = Panic r -> r = IndexOutOfBounds.
Proof.
  intros H. unfold generate_rle, index in H.
  destruct (nth_error row 0); cbn [obind] in H; [|congruence].
  destruct (rle_loop _ _ _ _) eqn:E; cbn [obind] in H; [discriminate|].
  injection H as <-. eapply rle_loop_panic_reason. exact E.
Qed.
Lemma vec_set_panic {A} (v : list A) (i : nat) (x : A) (r : panic_reason) :
  vec_set v i x = Panic r -> r = IndexOutOfBounds.
Proof.
  revert i; induction v as [| h t IH]; intros [| i] H; cbn [vec_set] in H;
    try congruence.
  destruct (vec_set t i x) eqn:E; cbn [obind] in H; [discriminate|].
  injection H as <-. eapply IH. exact E.
Qed.
Lemma slice_panic {A} (v : list A) (lo hi : nat) (r : panic_reason) :
  slice v lo hi = Panic r -> r = IndexOutOfBounds.
Proof. unfold slice. destruct (_ && _); congruence. Qed.

Lemma rle_image_rows_panic (bm : Bitmap) (n : nat) :
  forall y data r, rle_image_rows bm n y data = Panic r -> r = IndexOutOfBounds.
Proof.
  induction n as [| n IH]; intros y data r H; cbn [rle_image_rows] in H;
    [discriminate|].
  destruct (slice _ _ _) eqn:E1; cbn [obind] in H;
    [|injection H as <-; eapply slice_panic; exact E1].
  destruct (generate_rle _ _ _) eqn:E2; cbn [obind] in H;
    [|injection H as <-; eapply generate_rle_panic_reason; exact E2].
  destruct (vec_set _ _ _) eqn:E3; cbn [obind] in H;
    [|injection H as <-; eapply vec_set_panic; exact E3].
  eapply IH. exact H.
Qed.
Lemma rle_image_rows_ok (bm : Bitmap) (n : nat) :
  forall y data d, rle_image_rows bm n y data = Ok d ->
  forall y', (y <= y' < y + n)%nat ->
  ((y' + 1) * bm_pitch bm <= length (bm_buffer bm) /\ 1 <= bm_pitch bm /\
   bm_width bm <= 8 * bm_pitch bm)%nat.
Proof.
  induction n as [| n IH]; intros y data d H y' Hy; [lia|].
  cbn [rle_image_rows] in H.
  destruct (slice _ _ _) as [row|] eqn:E1; cbn [obind] in H; [|discriminate].
  destruct (generate_rle _ _ _) as [ws|] eqn:E2; cbn [obind] in H; [|discriminate].
  destruct (vec_set _ _ _) eqn:E3; cbn [obind] in H; [|discriminate].
  destruct (Nat.eq_dec y' y) as [<-|Hne]; [|eapply IH; [exact H | lia]].
  unfold slice in E1.
  destruct (Nat.leb_spec (y' * bm_pitch bm) ((y' + 1) * bm_pitch bm));
    [|discriminate].
  destruct (Nat.leb_spec ((y' + 1) * bm_pitch bm) (length (bm_buffer bm)));
    [|discriminate].
  injection E1 as <-.
  apply generate_rle_Ok_cond in E2. destruct E2 as [Hne Hw].
  rewrite length_firstn, length_skipn in Hw.
  assert (Hl : length (firstn ((y' + 1) * bm_pitch bm - y' * bm_pitch bm)
                 (skipn (y' * bm_pitch bm) (bm_buffer bm)))
               = bm_pitch bm).
  { rewrite length_firstn, length_skipn. nia. }
  split; [assumption|]. split.
  - destruct (bm_pitch bm) as [|p] eqn:Ep; [|lia].
    exfalso. apply Hne. apply length_zero_iff_nil. exact Hl.
  - nia.
Qed.
Lemma find_first_Some_iff (c k : nat) (l : list nat) :
  find_first c l = Some k <->
  nth_error l k = Some c /\ forall j, (j < k)%nat -> nth j l 0%nat <> c.
Proof.
  split; [apply find_first_Some|].
  revert k. induction l as [| x l IH]; intros k (H1 & H2).
  - destruct k; discriminate H1.
  - cbn [find_first]. destruct k as [| k].
    + injection H1 as ->. rewrite Nat.eqb_refl. reflexivity.
    + destruct (Nat.eqb_spec x c) as [E|E].
      * exfalso. apply (H2 0%nat); [lia | exact E].
      * rewrite (IH k); [reflexivity|]. split; [exact H1|].
        intros j Hj. apply (H2 (S j)). lia.
Qed.
Lemma find_first_None_iff (c : nat) (l : list nat) :
  find_first c l = None <-> ~ In c l.
Proof.
  split; [|apply find_first_not_In].
  intros H Hin. destruct (find_first_In c l Hin) as (k & Hk). congruence.
Qed.
Lemma ggi_loop_seq (s n : nat) (m : nat) :
  forall i, (1 <= i)%nat -> (i + m <= n)%nat ->
  ggi_loop (seq s n) m i [] s i = Ok ([], s, (i + m)%nat).
Proof.
  induction m as [| m IH]; intros i H1 H2.
  - rewrite Nat.add_0_r. reflexivity.
  - cbn [ggi_loop].
    rewrite (index_nth (seq s n) i 0%nat) by (rewrite length_seq; lia).
    rewrite seq_nth by lia. cbn [obind]. rewrite Nat.eqb_refl.
    rewrite IH by lia. f_equal. f_equal. lia.
Qed.
Lemma ggi_loop_count (chars : list nat) (m : nat) :
  forall i code rs rl, (1 <= i)%nat -> (i + m <= length chars)%nat ->
  (rs + rl = nth (i - 1) chars 0 + 1)%nat ->
  exists code' rs' rl',
    ggi_loop chars m i code rs rl = Ok (code', rs', rl') /\
    (rs' + rl' = nth (i + m - 1) chars 0 + 1)%nat /\
    length code' = (length code + length (filter
      (fun j => negb (Nat.eqb (nth j chars 0) (nth (j - 1) chars 0 + 1)))
      (seq i m)))%nat.
Proof.
  induction m as [| m IH]; intros i code rs rl H1 H2 H3.
  - exists code, rs, rl. rewrite Nat.add_0_r. cbn [seq filter length].
    split; [reflexivity|]. split; [exact H3 | lia].
  - cbn [ggi_loop].
    rewrite (index_nth chars i 0%nat) by lia. cbn [obind seq filter].
    rewrite H3.
    destruct (Nat.eqb_spec (nth i chars 0%nat) (nth (i - 1) chars 0%nat + 1))
      as [E|E]; cbn [negb].
    + destruct (IH (S i) code rs (S rl)) as (code' & rs' & rl' & A & B & C);
        [lia | lia | replace (S i - 1)%nat with i by lia; lia |].
      exists code', rs', rl'. split; [exact A|].
      replace (i + S m)%nat with (S i + m)%nat by lia. split; [exact B | exact C].
    + destruct (IH (S i) (code ++ [generate_get_glyph_index_range rs rl (i - rl)])
                  (nth i chars 0%nat) 1%nat) as (code' & rs' & rl' & A & B & C);
        [lia | lia | replace (S i - 1)%nat with i by lia; lia |].
      exists code', rs', rl'. split; [exact A|].
      replace (i + S m)%nat with (S i + m)%nat by lia. split; [exact B|].
      rewrite C, length_app. cbn [length]. lia.
Qed.
Lemma quot_round_up (x : Z) : 0 <= x ->
  64 * (Z.quot (x + 63) 64 - 1) < x <= 64 * Z.quot (x + 63) 64.
Proof.
  intros Hx. rewrite Z.quot_div_nonneg by lia.
  Z.div_mod_to_equations. lia.
Qed.
Lemma vec_or_panic (v : list Z) (i : nat) (x : Z) (r : panic_reason) :
  vec_or v i x = Panic r -> r = IndexOutOfBounds.
Proof.
  revert i; induction v as [| h t IH]; intros [| i] H; cbn [vec_or] in H;
    try congruence.
  destruct (vec_or t i x) eqn:E; cbn [obind] in H; [discriminate|].
  injection H as <-. eapply IH. exact E.
Qed.
Lemma load_row_panic (img : Decoded) (stride y n : nat) :
  forall x data r, load_row img stride y n x data = Panic r -> r = IndexOutOfBounds.
Proof.
  induction n as [| n IH]; intros x data r H; cbn [load_row] in H; [discriminate|].
  unfold index in H. destruct (nth_error _ _) as [px|]; cbn [obind] in H;
    [|congruence].
  destruct (pixel_on px).
  - destruct (vec_or _ _ _) eqn:E; cbn [obind] in H;
      [eapply IH; exact H | injection H as <-; eapply vec_or_panic; exact E].
  - cbn [obind] in H. eapply IH. exact H.
Qed.
Lemma load_rows_panic (img : Decoded) (stride n : nat) :
  forall y data r, load_rows img stride n y data = Panic r -> r = IndexOutOfBounds.
Proof.
  induction n as [| n IH]; intros y data r H; cbn [load_rows] in H; [discriminate|].
  destruct (load_row _ _ _ _ _ _) eqn:E; cbn [obind] in H;
    [eapply IH; exact H | injection H as <-; eapply load_row_panic; exact E].
Qed.
Lemma load_row_Ok_cond (img : Decoded) (stride y n : nat) :
  forall x data d, load_row img stride y n x data = Ok d ->
  n = 0%nat \/ (y * dec_width img + x + n <= length (dec_buffer img))%nat.
Proof.
  induction n as [| n IH]; intros x data d H; [left; reflexivity|right].
  cbn [load_row] in H. unfold index in H.
  destruct (nth_error _ _) as [px|] eqn:E; cbn [obind] in H; [|discriminate].
  assert (Hi : (y * dec_width img + x < length (dec_buffer img))%nat).
  { apply nth_error_Some. rewrite E. discriminate. }
  destruct (pixel_on px).
  - destruct (vec_or _ _ _); cbn [obind] in H; [|discriminate].
    destruct (IH _ _ _ H); lia.
  - cbn [obind] in H. destruct (IH _ _ _ H); lia.
Qed.
Lemma load_rows_Ok_cond (img : Decoded) (stride n : nat) :
  forall y data d, load_rows img stride n y data = Ok d ->
  n = 0%nat \/ dec_width img = 0%nat \/
  ((y + n) * dec_width img <= length (dec_buffer img))%nat.
Proof.
  induction n as [| n IH]; intros y data d H; [left; reflexivity|right].
  cbn [load_rows] in H.
  destruct (load_row _ _ _ _ _ _) eqn:E; cbn [obind] in H; [|discriminate].
  apply load_row_Ok_cond in E.
  destruct (IH _ _ _ H) as [->|[Hw|Hb]]; [|left; exact Hw|].
  - destruct E as [Hw|Hb]; [left; exact Hw|right; nia].
  - right. nia.
Qed.
Lemma load_row_ok (img : Decoded) (stride y : nat)
  (Hs : stride = ((dec_width img + 7) / 8)%nat)
  (Hy : (y < dec_height img)%nat)
  (Hbuf : (dec_width img * dec_height img <= length (dec_buffer img))%nat) :
  forall n x data, (x + n <= dec_width img)%nat ->
  length data = (stride * dec_height img)%nat ->
  exists data', load_row img stride y n x data = Ok data' /\
    length data' = length data.
Proof.
  induction n as [|n IH]; intros x data Hx Hl.
  - exists data. split; reflexivity.
  - cbn [load_row]. rewrite (nth_pixel_index _ _ pixel0) by nia. cbn [obind].
    destruct (pixel_on _).
    + assert (Hc : (y * stride + x / 8 < length data)%nat).
      { rewrite Hl. pose proof (stride_div (dec_width img) x ltac:(lia)).
        subst stride. nia. }
      destruct (vec_or_spec data _ (u8 (Z.shiftl 1 (Z.of_nat (Nat.land x 7)))) Hc)
        as (d1 & E1 & L1 & _).
      rewrite E1. cbn [obind].
      destruct (IH (S x) d1 ltac:(lia) ltac:(lia)) as (d2 & E2 & L2).
      exists d2. split; [exact E2 | lia].
    + cbn [obind]. apply IH; [lia | exact Hl].
Qed.
Lemma load_rows_ok (img : Decoded) (stride : nat)
  (Hs : stride = ((dec_width img + 7) / 8)%nat)
  (Hbuf : (dec_width img * dec_height img <= length (dec_buffer img))%nat) :
  forall n y data, (y + n <= dec_height img)%nat ->
  length data = (stride * dec_height img)%nat ->
  exists data', load_rows img stride n y data = Ok data' /\
    length data' = length data.
Proof.
  induction n as [|n IH]; intros y data Hy Hl.
  - exists data. split; reflexivity.
  - cbn [load_rows].
    destruct (load_row_ok img stride y Hs ltac:(lia) Hbuf (dec_width img) 0 data
                ltac:(lia) Hl) as (d1 & E1 & L1).
    rewrite E1. cbn [obind].
    destruct (IH (S y) d1 ltac:(lia) ltac:(lia)) as (d2 & E2 & L2).
    exists d2. split; [exact E2 | lia].
Qed.
Lemma load_row_app (img : Decoded) (extra : list RGBA) (stride y n : nat) :
  forall x data,
  (y * dec_width img + x + n <= length (dec_buffer img))%nat ->
  load_row (mk_decoded (dec_buffer img ++ extra) (dec_width img) (dec_height img))
    stride y n x data = load_row img stride y n x data.
Proof.
  induction n as [| n IH]; intros x data H; [reflexivity|].
  cbn [load_row dec_buffer dec_width]. unfold index.
  rewrite nth_error_app1 by lia.
  destruct (nth_error (dec_buffer img) _); cbn [obind]; [|reflexivity].
  destruct (if pixel_on _ then _ else _); cbn [obind]; [|reflexivity].
  apply IH. lia.
Qed.
Lemma load_rows_app (img : Decoded) (extra : list RGBA) (stride n : nat) :
  forall y data,
  ((y + n) * dec_width img <= length (dec_buffer img))%nat ->
  load_rows (mk_decoded (dec_buffer img ++ extra) (dec_width img) (dec_height img))
    stride n y data = load_rows img stride n y data.
Proof.
  induction n as [| n IH]; intros y data H; [reflexivity|].
  cbn [load_rows]. cbn [dec_width].
  rewrite load_row_app by nia.
  destruct (load_row img stride y (dec_width img) 0 data); cbn [obind];
    [|reflexivity].
  apply IH. nia.
Qed.
Lemma bitmap_row_str_ok (im : Image) (i : nat) (n : nat) :
  forall j s, (i * im_stride im + j + n <= length (im_data im))%nat ->
  exists s', bitmap_row_str im i n j s = Ok s'.
Proof.
  induction n as [| n IH]; intros j s H; [eexists; reflexivity|].
  cbn [bitmap_row_str]. rewrite (index_nth _ _ 0) by lia. cbn [obind].
  apply IH. lia.
Qed.
Lemma bitmap_rows_str_ok (im : Image) (n : nat) :
  forall i s, ((i + n) * im_stride im <= length (im_data im))%nat ->
  exists s', bitmap_rows_str im n i s = Ok s'.
Proof.
  induction n as [| n IH]; intros i s H; [eexists; reflexivity|].
  cbn [bitmap_rows_str].
  match goal with
  | |- context [bitmap_row_str im i (im_stride im) 0 ?s0] =>
      destruct (bitmap_row_str_ok im i (im_stride im) 0 s0) as (s1 & E); [nia|]
  end.
  rewrite E. cbn [obind]. apply IH. nia.
Qed.

(** ** [Font::generate_rle] *)

(** X1.  [generate_rle] succeeds exactly when the row has at least one
    byte (it always reads [row[0]], even for width 0) and [width] pixels fit
    in the row ([width <= 8 * row.len()]); otherwise it panics, and the only
    panic it can raise is an out-of-bounds index. *)
Theorem generate_rle_bounds (out row : list Z) (width : nat) :
  ((exists ws, generate_rle out row width = Ok ws) <->
   row <> [] /\ (width <= 8 * length row)%nat) /\
  (forall r, generate_rle out row width = Panic r -> r = IndexOutOfBounds).
Proof.
  split.
  - split.
    + intros (ws & H). eapply generate_rle_Ok_cond. exact H.
    + intros (Hne & Hl).
      destruct (generate_rle_ok row width Hne Hl) as (ws & Hws).
      rewrite (generate_rle_shift out row width), Hws. eexists. reflexivity.
  - intros r H. eapply generate_rle_panic_reason. exact H.
Qed.

(** X2.  [generate_rle] only appends to [output]: the words already there
    are kept, and what it appends, or whether it panics, does not depend on
    them. *)
Theorem generate_rle_appends (out row : list Z) (width : nat) :
  (forall ws, generate_rle [] row width = Ok ws ->
     generate_rle out row width = Ok (out ++ ws)) /\
  (forall r, generate_rle [] row width = Panic r ->
     generate_rle out row width = Panic r).
Proof.
  rewrite (generate_rle_shift out row width). split; intros x H; rewrite H; reflexivity.
Qed.

(** X3.  A row of width 0 still yields one word: its length field is 0
    and its color is bit 7 of the first byte (the word is 0x8000 when that
    bit is set, 0 otherwise). *)
Theorem generate_rle_zero_width (out : list Z) (b : Z) (t : list Z) :
  0 <= b < 256 ->
  generate_rle out (b :: t) 0 = Ok (out ++ [if Z.testbit b 7 then 32768 else 0]).
Proof.
  intros Hb. unfold generate_rle. cbn [index nth_error obind rle_loop].
  cbn [st_output st_run_color st_run_length]. f_equal. f_equal. f_equal.
  unfold pack_run.
  assert (E : Z.shiftr (Z.land b 128) 7 = if Z.testbit b 7 then 1 else 0).
  { apply Z.bits_inj'. intros m Hm.
    rewrite Z.shiftr_spec, Z.land_spec by lia.
    destruct (Z.eq_dec m 0) as [->|Hm0].
    - change (0 + 7) with 7. destruct (Z.testbit b 7); reflexivity.
    - change 128 with (2 ^ 7). rewrite Z.pow2_bits_false by lia.
      rewrite andb_false_r. destruct (Z.testbit b 7).
      + symmetry. apply Z.bits_above_log2; [lia|]. cbn. lia.
      + rewrite Z.testbit_0_l. reflexivity. }
  rewrite E. destruct (Z.testbit b 7); reflexivity.
Qed.

Lemma generate_rle_zero_width_witness :
  0 <= 200 < 256 /\
  generate_rle [] [200; 3]%Z 0 = Ok ([] ++ [if Z.testbit 200 7 then 32768 else 0]).
Proof. split; [lia|]. apply generate_rle_zero_width. lia. Defined.

(** X4.  Bytes after the ones holding the [width] pixels do not matter:
    appending bytes to a row that already holds them leaves the result of
    [generate_rle] unchanged. *)
Theorem generate_rle_trailing_bytes (out row extra : list Z) (width : nat) :
  row <> [] -> (width <= 8 * length row)%nat ->
  generate_rle out (row ++ extra) width = generate_rle out row width.
Proof.
  intros Hne Hw. destruct row as [| b0 t]; [contradiction|].
  unfold generate_rle. cbn [app index nth_error obind].
  change (b0 :: t ++ extra) with ((b0 :: t) ++ extra).
  rewrite rle_loop_app by exact Hw.
  reflexivity.
Qed.

Lemma generate_rle_trailing_bytes_witness :
  ([255; 0]%Z <> [] /\ (12 <= 8 * length [255; 0]%Z)%nat) /\
  generate_rle [] ([255; 0]%Z ++ [7; 9]%Z) 12 = generate_rle [] [255; 0]%Z 12.
Proof.
  split; [split; [discriminate | cbn; lia]|].
  apply generate_rle_trailing_bytes; [discriminate | cbn; lia].
Defined.

(** X5.  [generate_rle] appends one word more than the number of color
    changes between neighbouring pixels [j - 1] and [j], [1 <= j < width],
    of the row read MSB-first.  This holds for every width that fits in the
    row, also beyond 32767 pixels. *)
Theorem generate_rle_word_count (out row : list Z) (width : nat) :
  row <> [] -> (width <= 8 * length row)%nat ->
  exists ws, generate_rle out row width = Ok ws /\
    length ws = (length out + 1 + length (filter
      (fun j => negb (Z.eqb (row_bit row j) (row_bit row (j - 1))))
      (seq 1 (width - 1))))%nat.
Proof.
  intros Hne Hw. destruct row as [| b0 t] eqn:Er; [contradiction|].
  rewrite <- Er in *. unfold generate_rle.
  rewrite (index_nth row 0 0) by (rewrite Er; simpl; lia).
  cbn [obind].
  destruct (rle_loop_count row width 0
              (mk_rle_state out (Z.shiftr (Z.land (nth 0 row 0) 128) 7) 0 0)
              ltac:(lia) eq_refl (first_bit (nth 0 row 0)))
    as (st' & H1 & _ & _ & H4).
  rewrite H1. cbn [obind]. eexists. split; [reflexivity|].
    rewrite length_app, H4. cbn [st_output length].
    destruct width as [| w]; [cbn [Nat.sub seq filter length]; lia|].
    cbn [seq filter]. rewrite Z.eqb_refl. cbn [negb].
    replace (S w - 1)%nat with w by lia. lia.
Qed.

Lemma generate_rle_word_count_witness :
  ([240; 15]%Z <> [] /\ (16 <= 8 * length [240; 15]%Z)%nat) /\
  exists ws, generate_rle [] [240; 15]%Z 16 = Ok ws /\
    length ws = (length (@nil Z) + 1 + length (filter
      (fun j => negb (Z.eqb (row_bit [240; 15]%Z j) (row_bit [240; 15]%Z (j - 1))))
      (seq 1 (16 - 1))))%nat.
Proof.
  split; [split; [discriminate | cbn; lia]|].
  apply generate_rle_word_count; [discriminate | cbn; lia].
Defined.

(** ** [Font::generate_rle_image] *)

(** X6.  [generate_rle_image] succeeds exactly when the bitmap has no rows,
    or its pitch is at least 1, each row's [width] pixels fit in [pitch]
    bytes and the buffer holds [rows * pitch] bytes; otherwise it panics
    with an out-of-bounds index.  A bitmap with no rows gives the data
    [[1]] (the one header word). *)
Theorem generate_rle_image_ok_iff (bm : Bitmap) :
  ((exists img, generate_rle_image bm = Ok img) <->
   bm_rows bm = 0%nat \/
   (1 <= bm_pitch bm /\ bm_width bm <= 8 * bm_pitch bm /\
    bm_rows bm * bm_pitch bm <= length (bm_buffer bm))%nat) /\
  (forall r, generate_rle_image bm = Panic r -> r = IndexOutOfBounds) /\
  (bm_rows bm = 0%nat ->
   generate_rle_image bm = Ok (mk_rle_image [1] (bm_width bm) 0)).
Proof.
  assert (H0 : bm_rows bm = 0%nat ->
     generate_rle_image bm = Ok (mk_rle_image [1] (bm_width bm) 0)).
  { intros E. unfold generate_rle_image. rewrite E. reflexivity. }
  split; [split|split; [|exact H0]].
  - intros (img & H).
    destruct (bm_rows bm) as [|h] eqn:Eh; [left; reflexivity|right].
    unfold generate_rle_image in H. rewrite Eh in H.
    rewrite repeat_length in H. replace (S h + 1)%nat with (S (S h)) in H by lia.
    cbn [repeat vec_set obind] in H.
    destruct (rle_image_rows _ _ _ _) as [d|] eqn:E; cbn [obind] in H;
      [|discriminate].
    destruct (rle_image_rows_ok bm (S h) 0 _ d E h ltac:(lia)) as (A & B & C).
    split; [exact B|split; [exact C|]]. nia.
  - intros [Eh | (Hp & Hw & Hb)].
    + eexists. exact (H0 Eh).
    + destruct (generate_rle_image_shape bm Hp Hw Hb) as (wss & _ & _ & E).
      eexists. exact E.
  - intros r H. unfold generate_rle_image in H.
    destruct (vec_set _ _ _) eqn:E1; cbn [obind] in H;
      [|injection H as <-; eapply vec_set_panic; exact E1].
    destruct (rle_image_rows _ _ _ _) eqn:E2; cbn [obind] in H; [discriminate|].
    injection H as <-. eapply rle_image_rows_panic. exact E2.
Qed.

(** ** [Font::generate_get_glyph_index] *)

(** X7.  For any non-empty character list, sorted or not and with or
    without repeats, the compiled lookup returns [Some k] exactly when [k] is
    the first position holding [c], and [None] exactly for characters not in
    the list. *)
Theorem generate_get_glyph_index_any_order (chars : list nat) :
  chars <> [] ->
  exists code, generate_get_glyph_index chars = Ok code /\
    (forall c k, eval_index code c = Some k <->
       nth_error chars k = Some c /\ forall j, (j < k)%nat -> nth j chars 0%nat <> c) /\
    (forall c, eval_index code c = None <-> ~ In c chars).
Proof.
  intros Hne. destruct (generate_get_glyph_index_spec chars Hne) as (code & Hg & Hc).
  exists code. split; [exact Hg|]. split.
  - intros c k. rewrite Hc. apply find_first_Some_iff.
  - intros c. rewrite Hc. apply find_first_None_iff.
Qed.

Lemma generate_get_glyph_index_any_order_witness :
  [3; 1; 3; 2]%nat <> [] /\
  exists code, generate_get_glyph_index [3; 1; 3; 2]%nat = Ok code /\
    (forall c k, eval_index code c = Some k <->
       nth_error [3; 1; 3; 2]%nat k = Some c /\
       forall j, (j < k)%nat -> nth j [3; 1; 3; 2]%nat 0%nat <> c) /\
    (forall c, eval_index code c = None <-> ~ In c [3; 1; 3; 2]%nat).
Proof.
  split; [discriminate|]. apply generate_get_glyph_index_any_order. discriminate.
Defined.

(** X8.  [n >= 1] consecutive code points [s, s+1, ..., s+n-1] compile to a
    single test: [c == s] returning [Some(0)] when [n = 1], and the range
    test [c >= s && c < s+n] returning [Some(0 + c - s)] otherwise. *)
Theorem generate_get_glyph_index_consecutive (s n : nat) :
  (1 <= n)%nat ->
  generate_get_glyph_index (seq s n)
    = Ok [if Nat.eqb n 1 then IfEq s 0 else IfRange s (s + n) 0].
Proof.
  intros Hn. unfold generate_get_glyph_index.
  rewrite (index_nth (seq s n) 0 0%nat) by (rewrite length_seq; lia).
  rewrite seq_nth by lia. cbn [obind]. rewrite Nat.add_0_r, length_seq.
  rewrite ggi_loop_seq by lia. cbn [obind app].
  replace (1 + (n - 1))%nat with n by lia. rewrite Nat.sub_diag.
  reflexivity.
Qed.

Lemma generate_get_glyph_index_consecutive_witness :
  (1 <= 26)%nat /\
  generate_get_glyph_index (seq 97 26)
    = Ok [if Nat.eqb 26 1 then IfEq 97 0 else IfRange 97 (97 + 26) 0].
Proof. split; [lia|]. apply generate_get_glyph_index_consecutive. lia. Defined.

(** X9.  The compiled lookup has one [if] per maximal run of consecutive
    code points: one more than the number of positions [j >= 1] where
    [chars[j] <> chars[j-1] + 1]. *)
Theorem generate_get_glyph_index_clause_count (chars : list nat) :
  chars <> [] ->
  exists code, generate_get_glyph_index chars = Ok code /\
    length code = (1 + length (filter
      (fun j => negb (Nat.eqb (nth j chars 0) (nth (j - 1) chars 0 + 1)))
      (seq 1 (length chars - 1))))%nat.
Proof.
  intros Hne. destruct chars as [| c0 t] eqn:Ec; [contradiction|].
  rewrite <- Ec. unfold generate_get_glyph_index.
  rewrite (index_nth chars 0 0%nat) by (rewrite Ec; simpl; lia).
  cbn [obind].
  destruct (ggi_loop_count chars (length chars - 1) 1 [] (nth 0 chars 0%nat) 1%nat)
    as (code' & rs' & rl' & A & _ & C);
    [lia | rewrite Ec; simpl; lia | reflexivity |].
  rewrite A. cbn [obind]. eexists. split; [reflexivity|].
  rewrite length_app, C. cbn [length]. lia.
Qed.

Lemma generate_get_glyph_index_clause_count_witness :
  [1; 2; 3; 7; 8; 10]%nat <> [] /\
  exists code, generate_get_glyph_index [1; 2; 3; 7; 8; 10]%nat = Ok code /\
    length code = (1 + length (filter
      (fun j => negb (Nat.eqb (nth j [1; 2; 3; 7; 8; 10]%nat 0)
                              (nth (j - 1) [1; 2; 3; 7; 8; 10]%nat 0 + 1)))
      (seq 1 (length [1; 2; 3; 7; 8; 10]%nat - 1))))%nat.
Proof.
  split; [discriminate|]. apply generate_get_glyph_index_clause_count. discriminate.
Defined.

(** ** [Font::generate_glyph] and the font metrics *)

(** X10.  When FreeType loads the character, its bitmap encodes and its top
    bearing is non-negative, [generate_glyph] succeeds with that image, the
    top bearing, the left bearing unchanged whatever its sign (that check is
    commented out), and for a non-negative advance [x] (1/64 px) the
    advance rounded up to whole pixels: [64 * (a - 1) < x <= 64 * a]. *)
Theorem generate_glyph_fields (load_char : Z -> nat -> option GlyphSlot)
  (sz : Z) (c : nat) (slot : GlyphSlot) (img : RLEImage) :
  load_char sz c = Some slot ->
  generate_rle_image (gs_bitmap slot) = Ok img ->
  0 <= gs_bitmap_top slot ->
  exists g, generate_glyph load_char sz c = Ok g /\
    gl_image g = img /\
    gl_image_left g = gs_bitmap_left slot /\
    gl_image_top g = gs_bitmap_top slot /\
    (0 <= gs_advance_x slot ->
     64 * (gl_advance g - 1) < gs_advance_x slot <= 64 * gl_advance g).
Proof.
  intros Hl Hi Ht. unfold generate_glyph. rewrite Hl. cbn [unwrap obind].
  rewrite Hi. cbn [obind]. unfold assert.
  destruct (Z.leb_spec 0 (gs_bitmap_top slot)); [|lia]. cbn [obind].
  eexists. split; [reflexivity|]. cbn [gl_image gl_image_left gl_image_top gl_advance].
  split; [reflexivity|]. split; [reflexivity|]. split; [reflexivity|].
  apply quot_round_up.
Qed.

Lemma generate_glyph_fields_witness :
  (demo_load_char (fun _ => 7) 640 65%nat
     = Some (mk_glyph_slot (mk_bitmap [] 0 0 0) 0 7 640) /\
   generate_rle_image (mk_bitmap [] 0 0 0) = Ok (mk_rle_image [1] 0 0) /\
   0 <= 7) /\
  exists g, generate_glyph (demo_load_char (fun _ => 7)) 640 65%nat = Ok g /\
    gl_image g = mk_rle_image [1] 0 0 /\
    gl_image_left g = 0 /\ gl_image_top g = 7 /\
    (0 <= 640 -> 64 * (gl_advance g - 1) < 640 <= 64 * gl_advance g).
Proof.
  split; [split; [reflexivity | split; [reflexivity | lia]]|].
  apply (generate_glyph_fields (demo_load_char (fun _ => 7)) 640 65%nat
           (mk_glyph_slot (mk_bitmap [] 0 0 0) 0 7 640) (mk_rle_image [1] 0 0));
    [reflexivity | reflexivity | cbn; lia].
Defined.

(** X11.  The font ascender is a non-negative ascender [a] (1/64 px)
    rounded up to whole pixels.  For a descender of [-n] with [n >= 1], the
    value [generate] prints is a non-negative [d] with
    [64 * d < n <= 64 * d + 126]: always less than the descent in pixels,
    and by at most two pixels less than it rounded up. *)
Theorem font_metrics_rounding (a n : Z) :
  (0 <= a ->
   64 * (font_ascender (mk_size_metrics a (- n)) - 1) < a
     <= 64 * font_ascender (mk_size_metrics a (- n))) /\
  (1 <= n ->
   0 <= font_descender (mk_size_metrics a (- n)) /\
   64 * font_descender (mk_size_metrics a (- n)) < n <=
     64 * font_descender (mk_size_metrics a (- n)) + 126).
Proof.
  split.
  - intros Ha. unfold font_ascender. cbn [sm_ascender]. apply quot_round_up. exact Ha.
  - intros Hn. unfold font_descender. cbn [sm_descender].
    replace (- (- n + 63)) with (n - 63) by lia.
    destruct (Z.le_gt_cases 63 n) as [H|H].
    + rewrite Z.quot_div_nonneg by lia. Z.div_mod_to_equations. lia.
    + replace (n - 63) with (- (63 - n)) by lia.
      rewrite Z.quot_opp_l, Z.quot_small by lia. lia.
Qed.

(** ** [Image::load] *)

(** X12.  For u8 channels: a fully transparent pixel (alpha 0) is always
    set, and a pixel with alpha 192 or more is never set, whatever its
    color.  The u8 channel sum keeps [avg_color] at or below 85, so the level
    of such a pixel is at least 128. *)
Theorem pixel_on_alpha (p : RGBA) :
  0 <= px_r p <= 255 -> 0 <= px_g p <= 255 -> 0 <= px_b p <= 255 ->
  (px_a p = 0 -> pixel_on p = true) /\
  (192 <= px_a p <= 255 -> pixel_on p = false).
Proof.
  intros Hr Hg Hb.
  assert (HA : 0 <= avg_color p <= 85).
  { unfold avg_color, u8.
    pose proof (Z.mod_pos_bound ((px_r p + px_g p) mod 256 + px_b p) 256 ltac:(lia)).
    split; [apply Z.div_pos; lia|]. apply Z.div_le_upper_bound; lia. }
  assert (HL : level p = (255 - avg_color p) * px_a p / 255).
  { unfold level, u8. rewrite (Z.mod_small (255 - avg_color p)) by lia. reflexivity. }
  unfold pixel_on. rewrite HL. split.
  - intros ->. rewrite Z.mul_0_r. reflexivity.
  - intros Ha. apply Z.ltb_ge. apply Z.div_le_lower_bound; [lia|]. nia.
Qed.

Lemma pixel_on_alpha_witness :
  (0 <= 10 <= 255 /\ 0 <= 200 <= 255 /\ 0 <= 255 <= 255) /\
  (px_a (mk_rgba 10 200 255 0) = 0 -> pixel_on (mk_rgba 10 200 255 0) = true) /\
  (192 <= px_a (mk_rgba 10 200 255 0) <= 255 -> pixel_on (mk_rgba 10 200 255 0) = false).
Proof.
  split; [lia|].
  apply (pixel_on_alpha (mk_rgba 10 200 255 0)); cbn; lia.
Defined.

(** X13.  [Image::load] (after decoding) succeeds exactly when the pixel
    buffer holds at least [width * height] pixels; otherwise it panics with
    an out-of-bounds index, and it raises no other panic. *)
Theorem image_load_ok_iff (img : Decoded) :
  ((exists im, image_load img = Ok im) <->
   (dec_width img * dec_height img <= length (dec_buffer img))%nat) /\
  (forall r, image_load img = Panic r -> r = IndexOutOfBounds).
Proof.
  split; [split|].
  - intros (im & H). unfold image_load in H. cbv zeta in H.
    destruct (load_rows _ _ _ _ _) eqn:E; cbn [obind] in H; [|discriminate].
    apply load_rows_Ok_cond in E. destruct E as [E|[E|E]]; rewrite ?E; nia.
  - intros Hb. unfold image_load. cbv zeta.
    destruct (load_rows_ok img _ eq_refl Hb (dec_height img) 0
                (repeat 0 (((dec_width img + 7) / 8) * dec_height img)) ltac:(lia)
                (repeat_length _ _)) as (d & E & _).
    rewrite E. eexists. reflexivity.
  - intros r H. unfold image_load in H. cbv zeta in H.
    destruct (load_rows _ _ _ _ _) eqn:E; cbn [obind] in H; [discriminate|].
    injection H as <-. eapply load_rows_panic. exact E.
Qed.

(** X14.  Pixels after the first [width * height] are ignored: appending
    pixels to a buffer that already holds the image does not change the
    result of [Image::load]. *)
Theorem image_load_extra_pixels (img : Decoded) (extra : list RGBA) :
  (dec_width img * dec_height img <= length (dec_buffer img))%nat ->
  image_load (mk_decoded (dec_buffer img ++ extra) (dec_width img) (dec_height img))
    = image_load img.
Proof.
  intros H. unfold image_load. cbn [dec_width dec_height].
  rewrite load_rows_app by nia. reflexivity.
Qed.

Lemma image_load_extra_pixels_witness :
  (dec_width (mk_decoded [mk_rgba 0 0 0 0; mk_rgba 0 0 0 255] 2 1)
     * dec_height (mk_decoded [mk_rgba 0 0 0 0; mk_rgba 0 0 0 255] 2 1)
   <= length (dec_buffer (mk_decoded [mk_rgba 0 0 0 0; mk_rgba 0 0 0 255] 2 1)))%nat /\
  image_load (mk_decoded
    (dec_buffer (mk_decoded [mk_rgba 0 0 0 0; mk_rgba 0 0 0 255] 2 1)
       ++ [mk_rgba 1 2 3 4])
    (dec_width (mk_decoded [mk_rgba 0 0 0 0; mk_rgba 0 0 0 255] 2 1))
    (dec_height (mk_decoded [mk_rgba 0 0 0 0; mk_rgba 0 0 0 255] 2 1)))
  = image_load (mk_decoded [mk_rgba 0 0 0 0; mk_rgba 0 0 0 255] 2 1).
Proof.
  split; [cbn; lia|]. apply image_load_extra_pixels. cbn; lia.
Defined.

(** ** [Image::generate_bitmap] *)

(** X15.  [generate_bitmap] never panics on an image built by
    [Image::load]: whenever loading succeeds (the buffer holds
    [width * height] pixels), every [self.data[i * stride + j]] it reads is
    in bounds. *)
Theorem generate_bitmap_after_load (img : Decoded) (name epd_crate : String.string) :
  (dec_width img * dec_height img <= length (dec_buffer img))%nat ->
  exists im s, image_load img = Ok im /\ generate_bitmap im name epd_crate = Ok s.
Proof.
  intros Hb. unfold image_load. cbv zeta.
  destruct (load_rows_ok img _ eq_refl Hb (dec_height img) 0
              (repeat 0 (((dec_width img + 7) / 8) * dec_height img)) ltac:(lia)
              (repeat_length _ _)) as (d & E & L).
  rewrite E. cbn [obind].
  exists (mk_image d ((dec_width img + 7) / 8) (dec_width img) (dec_height img)).
  unfold generate_bitmap. cbn [im_height].
  match goal with
  | |- context [bitmap_rows_str ?im0 _ 0 ?s0] =>
      destruct (bitmap_rows_str_ok im0 (dec_height img) 0 s0) as (s & Es);
        [cbn [im_stride im_data]; rewrite L, repeat_length; nia|]
  end.
  rewrite Es. cbn [obind]. eexists. split; reflexivity.
Qed.

Lemma generate_bitmap_after_load_witness :
  (dec_width (mk_decoded [mk_rgba 0 0 0 0; mk_rgba 0 0 0 255; mk_rgba 0 0 0 0] 3 1)
     * dec_height (mk_decoded [mk_rgba 0 0 0 0; mk_rgba 0 0 0 255; mk_rgba 0 0 0 0] 3 1)
   <= length (dec_buffer
        (mk_decoded [mk_rgba 0 0 0 0; mk_rgba 0 0 0 255; mk_rgba 0 0 0 0] 3 1)))%nat /\
  exists im s,
    image_load (mk_decoded [mk_rgba 0 0 0 0; mk_rgba 0 0 0 255; mk_rgba 0 0 0 0] 3 1)
      = Ok im /\
    generate_bitmap im (String.String (Ascii.ascii_of_nat 76) String.EmptyString)
      (String.String (Ascii.ascii_of_nat 101) String.EmptyString) = Ok s.
Proof.
  split; [cbn; lia|]. apply generate_bitmap_after_load. cbn; lia.
Defined.
